(** * Sandstone: resource naming ([BasePathClass]) and target selectors
    ([SelectorClass])

    A shallow embedding of
    - [src/_internals/commands/implementations/Teleport.ts], lines 123-237
      ([trimSlashes], [pathToArray], [BasePathClass]);
    - [src/_internals/variables/Selector.ts]
      ([parseScore], [parseAdvancements], [SelectorClass], [Selector]).

    JavaScript strings are modelled by [string]; [undefined] by [None] of an
    [option]; a function that may [throw] returns a [Completion]. *)

From Stdlib Require Import String Ascii List Bool Arith ZArith Lia.
From Stdlib Require Import DecimalString.
Import ListNotations.
Open Scope string_scope.

(** ** JavaScript primitives used by both files *)

(** The completion of a call: a returned value or a thrown error. *)
Inductive Completion (E A : Type) : Type :=
| Normal (a : A)
| Throw (e : E).
Arguments Normal {E A} a.
Arguments Throw {E A} e.

Module JS.

(** [s.length === 0] *)
Definition isEmpty (s : string) : bool :=
  Nat.eqb (String.length s) 0.

(** [s.includes(needle)]: [needle] occurs somewhere in [s]. *)
Fixpoint includes (s needle : string) : bool :=
  String.prefix needle s ||
  match s with
  | EmptyString => false
  | String _ s' => includes s' needle
  end.

(** [s.split(sep)] for a one-character separator; the empty string splits
    into one empty piece. *)
Fixpoint split (sep : ascii) (s : string) : list string :=
  match s with
  | EmptyString => [EmptyString]
  | String c s' =>
      if Ascii.eqb c sep then EmptyString :: split sep s'
      else match split sep s' with
           | piece :: pieces => String c piece :: pieces
           | [] => [String c EmptyString]
           end
  end.

(** [pieces.join(sep)] on an array of strings. *)
Definition join (sep : string) (pieces : list string) : string :=
  String.concat sep pieces.

(** [xs.filter((x) => x !== undefined)] *)
Fixpoint filterDefined {A : Type} (xs : list (option A)) : list A :=
  match xs with
  | [] => []
  | Some x :: xs' => x :: filterDefined xs'
  | None :: xs' => filterDefined xs'
  end.

(** Every character of [s] satisfies [cls]. *)
Fixpoint allChars (cls : ascii -> bool) (s : string) : bool :=
  match s with
  | EmptyString => true
  | String c s' => cls c && allChars cls s'
  end.

(** [s.match(/^[cls]+$/)] is not null: [s] is a non-empty run of [cls]. *)
Definition matchesClassPlus (cls : ascii -> bool) (s : string) : bool :=
  negb (isEmpty s) && allChars cls s.

Definition inRange (lo hi c : ascii) : bool :=
  (nat_of_ascii lo <=? nat_of_ascii c)%nat && (nat_of_ascii c <=? nat_of_ascii hi)%nat.

(** The class [[0-9a-z_-]]. *)
Definition namespaceChar (c : ascii) : bool :=
  inRange "0" "9" c || inRange "a" "z" c || Ascii.eqb c "_" || Ascii.eqb c "-".

(** The class [[0-9a-z_\-/.]]. *)
Definition pathChar (c : ascii) : bool :=
  inRange "0" "9" c || inRange "a" "z" c || Ascii.eqb c "_" || Ascii.eqb c "-"
  || Ascii.eqb c "/" || Ascii.eqb c ".".

Definition slash : ascii := "/"%char.

Definition startsWithSlash (s : string) : bool :=
  match s with
  | String c _ => Ascii.eqb c slash
  | EmptyString => false
  end.

Fixpoint endsWithSlash (s : string) : bool :=
  match s with
  | EmptyString => false
  | String c EmptyString => Ascii.eqb c slash
  | String _ s' => endsWithSlash s'
  end.

(** [s.replace(/^\/+/, '')]: the leading run of slashes is removed. *)
Fixpoint replaceLeadingSlashes (s : string) : string :=
  match s with
  | String c s' => if Ascii.eqb c slash then replaceLeadingSlashes s' else s
  | EmptyString => EmptyString
  end.

(** [s.replace(/\/+$/, '')]: the match is the leftmost position from which
    only slashes (at least one) remain up to the end of the string; it is
    replaced by the empty string. *)
Fixpoint replaceTrailingSlashes (s : string) : string :=
  match s with
  | EmptyString => EmptyString
  | String c s' =>
      if allChars (fun d => Ascii.eqb d slash) s then EmptyString
      else String c (replaceTrailingSlashes s')
  end.

(** A run of slashes (possibly empty), the shape of what [/\/+/] matches. *)
Definition allSlashes (s : string) : bool :=
  allChars (fun d => Ascii.eqb d slash) s.

(** No character of [s] is a slash. *)
Definition noSlash (s : string) : bool :=
  allChars (fun d => negb (Ascii.eqb d slash)) s.

End JS.

(** ** Teleport.ts: [BasePathClass] *)

Module BasePath.

(** [BasePathOptions] *)
Record BasePathOptions : Type := {
  opt_namespace : option string;
  opt_directory : option string
}.

(** What [Datapack.getResourcePath] returns, as far as [getName] reads it. *)
Record ResourcePath : Type := {
  rp_namespace : string;
  fullPath : list string
}.

(** The fields of [BasePathClass] that [getName] and [child] read; the
    [datapack] field is represented by its method [getResourcePath] below. *)
Record BasePathClass : Type := {
  namespace : option string;
  directory : option string
}.

(** [trimSlashes]: [str?.replace(/^\/+/, '')?.replace(/\/+$/, '')] *)
Definition trimSlashes (str : option string) : option string :=
  option_map JS.replaceTrailingSlashes (option_map JS.replaceLeadingSlashes str).

(** [pathToArray]: [(path ?? '').split('/')] *)
Definition pathToArray (path : option string) : list string :=
  JS.split JS.slash (match path with Some p => p | None => EmptyString end).

(** The constructor of [BasePathClass]. *)
Definition new_BasePathClass (basePath : BasePathOptions) : BasePathClass :=
  {| namespace := opt_namespace basePath;
     directory := trimSlashes (opt_directory basePath) |}.

(** [child]; its parameter has type [Omit<BasePathOptions, 'namespace'>], so
    only the directory is passed. *)
Definition child (self : BasePathClass) (childDirectory : option string) : BasePathClass :=
  let newDirectory := pathToArray (trimSlashes childDirectory) in
  let oldDirectory := pathToArray (directory self) in
  new_BasePathClass
    {| opt_namespace := namespace self;
       opt_directory := Some (JS.join "/" (oldDirectory ++ newDirectory)) |}.

(** The errors thrown by [getName], one constructor per [throw]. *)
Inductive NamingError : Type :=
| NamespaceUnderBasePath
| InvalidNamespace (ns : string)
| EmptyName
| InvalidPath (path : string)
| DoubleDot (path : string).

Definition dquote : string := String (ascii_of_nat 34) EmptyString.

(** The message of the [Error] object that is thrown. *)
Definition message (e : NamingError) : string :=
  match e with
  | NamespaceUnderBasePath => "Cannot define namespace under a base path."
  | InvalidNamespace ns =>
      "A namespace should only contain numbers, lowercase letters, underscores and hyphen/minus, and be at least 1 caracter long: got "
      ++ dquote ++ ns ++ dquote
  | EmptyName => "Empty name is not allowed."
  | InvalidPath path =>
      "Resources names can only contain numbers, lowercase letters, underscores, forward slash, period, and hyphens: got "
      ++ dquote ++ path ++ dquote
  | DoubleDot path =>
      "Resources names cannot inclue two consecutive dots: got "
      ++ dquote ++ path ++ dquote
  end.

(** [this.namespace !== undefined] *)
Definition isDefined {A : Type} (x : option A) : bool :=
  match x with Some _ => true | None => false end.

(** [!this.namespace]: [undefined] and the empty string are falsy. *)
Definition isFalsy (x : option string) : bool :=
  match x with
  | None => true
  | Some s => JS.isEmpty s
  end.

Section GetName.

(** [this.datapack.getResourcePath]; [Datapack] is not among the source
    files, so the method is a parameter of the development. *)
Variable getResourcePath : string -> ResourcePath.

(** The path computed at line 166. *)
Definition resolvedPath (self : BasePathClass) (name : string) : string :=
  JS.join "/"
    (JS.filterDefined (directory self :: map Some (fullPath (getResourcePath name)))).

(** The namespace computed at line 169. *)
Definition resolvedNamespace (self : BasePathClass) (name : string) : string :=
  match namespace self with
  | Some ns => ns
  | None => rp_namespace (getResourcePath name)
  end.

(** [getName] *)
Definition getName (self : BasePathClass) (name : string) : Completion NamingError string :=
  if isDefined (namespace self) && JS.includes name ":" then
    Throw NamespaceUnderBasePath
  else
    let resourcePath := getResourcePath name in
    let path :=
      JS.join "/" (JS.filterDefined (directory self :: map Some (fullPath resourcePath))) in
    let ns :=
      match namespace self with
      | Some ns => ns
      | None => rp_namespace resourcePath
      end in
    if negb (JS.matchesClassPlus JS.namespaceChar ns) then
      Throw (InvalidNamespace ns)
    else if JS.isEmpty path then
      Throw EmptyName
    else if negb (JS.matchesClassPlus JS.pathChar path) then
      Throw (InvalidPath path)
    else if JS.includes path ".." then
      Throw (DoubleDot path)
    else if isFalsy (namespace self) && negb (JS.includes name ":") then
      Normal path
    else
      Normal (ns ++ ":" ++ path).

End GetName.

(** Modelled from the spec: [Datapack.getResourcePath], which is not among
    the source files.  The name is split on its first [:] into an explicit
    namespace and a bare path; without a [:] the namespace is the host's
    default one.  The bare path is cut into its [/]-separated segments. *)
Fixpoint splitFirstColon (name : string) : option (string * string) :=
  match name with
  | EmptyString => None
  | String c rest =>
      if Ascii.eqb c ":" then Some (EmptyString, rest)
      else match splitFirstColon rest with
           | Some (ns, path) => Some (String c ns, path)
           | None => None
           end
  end.

(** Modelled from the spec: [Datapack.getResourcePath] (see
    [splitFirstColon]). *)
Definition getResourcePath_spec (defaultNamespace name : string) : ResourcePath :=
  match splitFirstColon name with
  | Some (ns, path) => {| rp_namespace := ns; fullPath := JS.split JS.slash path |}
  | None => {| rp_namespace := defaultNamespace; fullPath := JS.split JS.slash name |}
  end.

(** [path ?? ''] *)
Definition orEmpty (path : option string) : string :=
  match path with Some p => p | None => EmptyString end.

(** A directory that is not empty and has no slash at either end. *)
Definition isClean (s : string) : bool :=
  negb (JS.isEmpty s) && negb (JS.startsWithSlash s) && negb (JS.endsWithSlash s).

(** Two directories put together: the one that is not empty, or both with
    a slash between them. *)
Definition joinDirectories (parent childDirectory : string) : string :=
  if JS.isEmpty parent then childDirectory
  else if JS.isEmpty childDirectory then parent
  else parent ++ "/" ++ childDirectory.

(** The directory string, once its own leading and trailing slashes are
    stripped, still has a doubled separator. *)
Definition hasInnerDouble (given : option string) : bool :=
  JS.includes (orEmpty (trimSlashes given)) "//".

(** The contexts that the constructor and [child] build, with the directory
    arguments that were given on the way, in order. *)
Inductive Built : list (option string) -> BasePathClass -> Prop :=
| Built_root basePath :
    Built [opt_directory basePath] (new_BasePathClass basePath)
| Built_child given parent childDirectory :
    Built given parent ->
    Built (given ++ [childDirectory]) (child parent childDirectory).

(** Two contexts used as instances below. *)
Definition fixedNamespace : BasePathClass :=
  new_BasePathClass {| opt_namespace := Some "x"; opt_directory := None |}.

Definition plainDirectory : BasePathClass :=
  new_BasePathClass {| opt_namespace := None; opt_directory := Some "dir" |}.

End BasePath.

(** ** Selector.ts *)

Module Selector.

(** [Range]: a number, or a two-element array whose bounds may be [null]
    ([None]).  Numbers are the integer-valued ones of magnitude below
    [10^21], for which [Number.prototype.toString] is the decimal numeral. *)
Inductive Range : Type :=
| RNumber (n : Z)
| RBounds (min max : option Z).

(** [ScoreArgument = Record<string, Range>], in [Object.entries] order. *)
Definition ScoreArgument : Type := list (string * Range).

(** The values of an [AdvancementsArgument].  The declared type nests one
    level; [parseAdvancements] recurses to any depth. *)
#[warnings="-register-all"]
Inductive AdvancementValue : Type :=
| AdvBoolean (b : bool)
| AdvRecord (entries : list (string * AdvancementValue)).

Definition AdvancementsArgument : Type := list (string * AdvancementValue).

(** The values that the properties of [SelectorProperties] range over. *)
Inductive Value : Type :=
| VNumber (n : Z)
| VString (s : string)
| VBoolean (b : bool)
| VBounds (min max : option Z)
| VStrings (xs : list string)
| VScore (score : ScoreArgument)
| VAdvancements (advancements : AdvancementsArgument).

(** A [SelectorProperties] object: its own properties in [Object.entries]
    order, keys pairwise distinct; a property holding [undefined] is [None]. *)
Definition Properties : Type := list (string * option Value).

(** [obj[name]]: [undefined] when the key is missing or holds [undefined]. *)
Fixpoint get (name : string) (obj : Properties) : option Value :=
  match obj with
  | [] => None
  | (key, value) :: rest => if String.eqb key name then value else get name rest
  end.

(** [delete obj[name]] *)
Definition delete (name : string) (obj : Properties) : Properties :=
  filter (fun entry => negb (String.eqb (fst entry) name)) obj.


(** String conversion of a number, a boolean and of an array element that
    may be [null] (rendered empty by [join] and by [?? '']). *)
Definition Number_toString (n : Z) : string :=
  NilZero.string_of_int (Z.to_int n).

Definition Boolean_toString (b : bool) : string :=
  if b then "true" else "false".

Definition bound_toString (b : option Z) : string :=
  match b with
  | Some n => Number_toString n
  | None => EmptyString
  end.

(** [parseScore] *)
Definition parseScoreEntry (entry : string * Range) : string :=
  match snd entry with
  | RBounds min max =>
      JS.join "=" [fst entry; bound_toString min ++ ".." ++ bound_toString max]
  | RNumber n => JS.join "=" [fst entry; Number_toString n]
  end.

Definition parseScore (scores : ScoreArgument) : string :=
  "{" ++ JS.join ", " (map parseScoreEntry scores) ++ "}".

(** [parseAdvancements] *)
Fixpoint parseAdvancementValue (value : AdvancementValue) : string :=
  match value with
  | AdvBoolean b => Boolean_toString b
  | AdvRecord entries =>
      "{" ++ JS.join ", "
               (map (fun entry => JS.join "=" [fst entry; parseAdvancementValue (snd entry)])
                    entries) ++ "}"
  end.

Definition parseAdvancements (advancements : AdvancementsArgument) : string :=
  parseAdvancementValue (AdvRecord advancements).

(** [value.toString()] in the generic branch. *)
Definition Value_toString (value : Value) : string :=
  match value with
  | VNumber n => Number_toString n
  | VString s => s
  | VBoolean b => Boolean_toString b
  | VBounds min max => JS.join "," [bound_toString min; bound_toString max]
  | VStrings xs => JS.join "," xs
  | VScore _ => "[object Object]"
  | VAdvancements _ => "[object Object]"
  end.

(** [SelectorClass]; [commandsRoot] is read only by [listScores]. *)
Record SelectorClass : Type := {
  target : string;
  arguments : Properties
}.

(** The constructor: [this.arguments = selectorArguments ?? {}]. *)
Definition new_SelectorClass (target : string) (selectorArguments : option Properties)
  : SelectorClass :=
  {| target := target;
     arguments := match selectorArguments with Some props => props | None => [] end |}.

(** The state of a running [toString]: the receiver, the working copy
    [args] and the array [result]. *)
Record Frame : Type := {
  this : SelectorClass;
  args : Properties;
  result : list (string * string)
}.

(** A modifier, applied to a value of its declared parameter type, yields
    the pairs it pushes on [result]; a value of another type is outside the
    domain of the cast [value as any] ([None]). *)
Definition Modifier : Type := Value -> option (list (string * string)).

Definition modifier_score : Modifier := fun value =>
  match value with
  | VScore score => Some [("score", parseScore score)]
  | _ => None
  end.

Definition modifier_advancements : Modifier := fun value =>
  match value with
  | VAdvancements advancements => Some [("advancements", parseAdvancements advancements)]
  | _ => None
  end.

Definition modifier_tag : Modifier := fun value =>
  match value with
  | VStrings tags => Some (map (fun tag_ => ("tag", tag_)) tags)
  | VString tag => Some (map (fun tag_ => ("tag", tag_)) [tag])
  | _ => None
  end.

Definition modifier_predicate : Modifier := fun value =>
  match value with
  | VStrings predicates => Some (map (fun pred => ("predicate", pred)) predicates)
  | VString predicate => Some (map (fun pred => ("predicate", pred)) [predicate])
  | _ => None
  end.

Definition modifier_team : Modifier := fun value =>
  match value with
  | VBoolean true => Some [("team", "!")]
  | VBoolean false => Some [("team", EmptyString)]
  | VString team => Some [("team", team)]
  | _ => None
  end.

(** [Object.entries(modifiers)] *)
Definition modifiers : list (string * Modifier) :=
  [ ("score", modifier_score);
    ("advancements", modifier_advancements);
    ("tag", modifier_tag);
    ("predicate", modifier_predicate);
    ("team", modifier_team) ].

(** One turn of the loop over the modifiers (lines 240-248). *)
Definition applyModifier (entry : string * Modifier) (f : Frame) : option Frame :=
  match get (fst entry) (args f) with
  | Some value =>
      match snd entry value with
      | Some pushed =>
          Some {| this := this f;
                  args := delete (fst entry) (args f);
                  result := result f ++ pushed |}
      | None => None
      end
  | None => Some f
  end.

Fixpoint applyModifiers (entries : list (string * Modifier)) (f : Frame) : option Frame :=
  match entries with
  | [] => Some f
  | entry :: rest =>
      match applyModifier entry f with
      | Some f' => applyModifiers rest f'
      | None => None
      end
  end.

(** One turn of the [forEach] over the remaining keys (lines 250-254). *)
Definition pushGeneric (f : Frame) (entry : string * option Value) : Frame :=
  match snd entry with
  | Some value =>
      {| this := this f;
         args := args f;
         result := result f ++ [(fst entry, Value_toString value)] |}
  | None => f
  end.

(** The template of line 257. *)
Definition renderPair (pair : string * string) : string :=
  fst pair ++ "=" ++ snd pair.

Definition render (target : string) (result : list (string * string)) : string :=
  target ++ "[" ++ JS.join ", " (map renderPair result) ++ "]".

(** Lines 199-255: the frame when the [return] of line 257 is reached.  The
    working copy starts as [{ ...this.arguments }]. *)
Definition toString_frame (self : SelectorClass) : option Frame :=
  let frame := {| this := self; args := arguments self; result := [] |} in
  match applyModifiers modifiers frame with
  | Some frame' => Some (fold_left pushGeneric (args frame') frame')
  | None => None
  end.

(** [toString], returning the string together with the receiver as the
    call leaves it.  The result is [None] only when a special-cased key
    holds a value outside the parameter type of its modifier. *)
Definition toString_run (self : SelectorClass) : option (string * SelectorClass) :=
  if Nat.eqb (List.length (arguments self)) 0 then
    Some (target self, self)
  else
    match toString_frame self with
    | Some frame => Some (render (target (this frame)) (result frame), this frame)
    | None => None
    end.

Definition toString (self : SelectorClass) : option string :=
  option_map fst (toString_run self).

(** The errors of the specification's selector constructor. *)
Inductive SelectorError : Type :=
| LimitRequired
| InvalidTypeForPlayerSelector.

(** [Selector]: the body is [return new SelectorClass(this, target,
    selectorArguments)]; it has no [throw]. *)
Definition Selector (target : string) (selectorArguments : option Properties)
  : Completion SelectorError SelectorClass :=
  Normal (new_SelectorClass target selectorArguments).

(** *** The overload signatures of [Selector] (lines 276-281)

    The capabilities [IsSingle] and [IsPlayer] are the type arguments of the
    returned [SelectorClass]; they exist in the signatures only.  Of the
    argument types the table keeps what the signatures say about the target
    and about the [limit] and [type] properties. *)











(** *** Vocabulary for the statements about [toString] *)

(** The pair was emitted under the key [k]. *)
Definition isKey (k : string) (pair : string * string) : bool :=
  String.eqb (fst pair) k.

(** Every entry of [obj] under key [k] holds [undefined]. *)
Definition undefinedAt (k : string) (obj : Properties) : Prop :=
  forall value, In (k, value) obj -> value = None.

(** Every value of [obj] is [undefined]. *)
Definition allUndefined (obj : Properties) : Prop :=
  forall key value, In (key, value) obj -> value = None.

(** A modifier that pushes pairs under the key [name] only. *)
Definition keyed (name : string) (m : Modifier) : Prop :=
  forall value pushed pair, m value = Some pushed -> In pair pushed -> fst pair = name.

(** The declared types of the special-cased properties of
    [SelectorProperties] ([score?: ScoreArgument], [advancements?:
    AdvancementsArgument], [tag?: string | string[]], [predicate?: string |
    string[]], [team?: string | boolean]). *)
Definition isScoreArgument (value : Value) : bool :=
  match value with VScore _ => true | _ => false end.

Definition isAdvancementsArgument (value : Value) : bool :=
  match value with VAdvancements _ => true | _ => false end.

Definition isStringOrStrings (value : Value) : bool :=
  match value with VString _ | VStrings _ => true | _ => false end.

Definition isStringOrBoolean (value : Value) : bool :=
  match value with VString _ | VBoolean _ => true | _ => false end.

Definition declaredTypes : list (string * (Value -> bool)) :=
  [ ("score", isScoreArgument);
    ("advancements", isAdvancementsArgument);
    ("tag", isStringOrStrings);
    ("predicate", isStringOrStrings);
    ("team", isStringOrBoolean) ].

(** Every special-cased property of [obj] that is defined has its declared
    type. *)
Definition wellTyped (obj : Properties) : bool :=
  forallb (fun declared : string * (Value -> bool) =>
             match get (fst declared) obj with
             | Some value => snd declared value
             | None => true
             end)
          declaredTypes.

(** The keys that have a modifier. *)
Definition isSpecial (key : string) : bool :=
  existsb (String.eqb key) (map fst modifiers).

(** The pairs that the modifier [entry] pushes for the object [obj]: none
    when the key is missing or undefined. *)
Definition pushedBy (entry : string * Modifier) (obj : Properties)
  : option (list (string * string)) :=
  match get (fst entry) obj with
  | Some value => snd entry value
  | None => Some []
  end.

(** The pairs pushed by the modifiers [entries], in their order. *)
Fixpoint specialPairs (entries : list (string * Modifier)) (obj : Properties)
  : option (list (string * string)) :=
  match entries with
  | [] => Some []
  | entry :: rest =>
      match pushedBy entry obj with
      | Some pushed => option_map (app pushed) (specialPairs rest obj)
      | None => None
      end
  end.

(** The pair that a property gives in the generic branch. *)
Definition genericPair (entry : string * option Value) : list (string * string) :=
  match snd entry with
  | Some value => [(fst entry, Value_toString value)]
  | None => []
  end.

Definition genericPairs (obj : Properties) : list (string * string) :=
  flat_map genericPair obj.

(** The properties of [obj] whose key has no modifier, in their order. *)
Definition remaining (obj : Properties) : Properties :=
  filter (fun entry => negb (isSpecial (fst entry))) obj.

(** [if (args[name] !== undefined) delete args[name]] *)
Definition deleteDefined (name : string) (obj : Properties) : Properties :=
  match get name obj with
  | Some _ => delete name obj
  | None => obj
  end.

(** The working copy after the turns for [entries]. *)
Definition finalArgs (entries : list (string * Modifier)) (obj : Properties) : Properties :=
  fold_left (fun o (entry : string * Modifier) => deleteDefined (fst entry) o) entries obj.

End Selector.

(** * Properties of [BasePathClass] *)

Module BasePathFacts.
Import BasePath.

(** ** Trimming *)

Lemma allSlashes_cons c s :
  JS.allChars (fun d => Ascii.eqb d JS.slash) (String c s) = true ->
  Ascii.eqb c JS.slash = true /\ JS.allChars (fun d => Ascii.eqb d JS.slash) s = true.
Proof. simpl. intros H. apply andb_true_iff in H. exact H. Qed.

Lemma replaceLeadingSlashes_start s :
  JS.startsWithSlash (JS.replaceLeadingSlashes s) = false.
Proof.
  induction s as [|c s IH]; simpl; [reflexivity|].
  destruct (Ascii.eqb c JS.slash) eqn:E; [exact IH|].
  simpl. exact E.
Qed.

Lemma replaceTrailingSlashes_start s :
  JS.startsWithSlash s = false ->
  JS.startsWithSlash (JS.replaceTrailingSlashes s) = false.
Proof.
  destruct s as [|c s]; simpl; [reflexivity|].
  intros E. rewrite E. simpl. exact E.
Qed.

Lemma replaceTrailingSlashes_empty s :
  JS.replaceTrailingSlashes s = EmptyString ->
  JS.allChars (fun d => Ascii.eqb d JS.slash) s = true.
Proof.
  destruct s as [|c s]; [reflexivity|].
  cbn [JS.replaceTrailingSlashes].
  destruct (JS.allChars _ (String c s)) eqn:E; [reflexivity | discriminate].
Qed.

Lemma replaceTrailingSlashes_end s :
  JS.endsWithSlash (JS.replaceTrailingSlashes s) = false.
Proof.
  induction s as [|c s IH]; [reflexivity|].
  cbn [JS.replaceTrailingSlashes].
  destruct (JS.allChars _ (String c s)) eqn:E; [reflexivity|].
  destruct (JS.replaceTrailingSlashes s) as [|c' r] eqn:R.
  - simpl. destruct (Ascii.eqb c JS.slash) eqn:C; [|reflexivity].
    apply replaceTrailingSlashes_empty in R.
    simpl in E. rewrite C, R in E. discriminate.
  - exact IH.
Qed.

Lemma trimSlashes_trimmed str d :
  trimSlashes str = Some d ->
  JS.startsWithSlash d = false /\ JS.endsWithSlash d = false.
Proof.
  destruct str as [s|]; [|discriminate].
  cbn. intros H. injection H as <-. split.
  - apply replaceTrailingSlashes_start, replaceLeadingSlashes_start.
  - apply replaceTrailingSlashes_end.
Qed.

(** ** Segments *)

Lemma split_nonempty sep s : JS.split sep s <> [].
Proof.
  destruct s as [|c s]; simpl; [discriminate|].
  destruct (Ascii.eqb c sep); [discriminate|].
  destruct (JS.split sep s); discriminate.
Qed.

Lemma split_first_segment s :
  s <> EmptyString -> JS.startsWithSlash s = false ->
  hd EmptyString (JS.split JS.slash s) <> EmptyString.
Proof.
  destruct s as [|c s]; [congruence|].
  intros _. simpl. intros E. rewrite E.
  destruct (JS.split JS.slash s); simpl; discriminate.
Qed.

Lemma split_cons sep c s :
  JS.split sep (String c s) =
  if Ascii.eqb c sep then EmptyString :: JS.split sep s
  else match JS.split sep s with
       | piece :: pieces => String c piece :: pieces
       | [] => [String c EmptyString]
       end.
Proof. reflexivity. Qed.

Lemma split_last_segment s :
  s <> EmptyString -> JS.endsWithSlash s = false ->
  last (JS.split JS.slash s) EmptyString <> EmptyString.
Proof.
  induction s as [|c s IH]; [congruence|].
  intros _ E.
  destruct s as [|c' s'].
  - simpl in *. rewrite E. simpl. discriminate.
  - assert (Hs : String c' s' <> EmptyString) by discriminate.
    assert (E' : JS.endsWithSlash (String c' s') = false) by exact E.
    specialize (IH Hs E').
    rewrite split_cons.
    destruct (JS.split JS.slash (String c' s')) as [|p ps] eqn:L;
      [exfalso; eapply split_nonempty; eauto|].
    destruct (Ascii.eqb c JS.slash).
    + exact IH.
    + destruct ps as [|q qs]; [simpl; discriminate | exact IH].
Qed.

(** C4, as stated, fails: a doubled separator inside the directory option
    survives the constructor, and the stored directory then has an empty
    segment; the same holds for a context obtained by [child]; and a
    directory of slashes only is stored as the empty string, whose one
    segment is empty. *)
Lemma directory_empty_segment_counterexample :
  In EmptyString
     (pathToArray (directory (new_BasePathClass
        {| opt_namespace := None; opt_directory := Some "a//b" |})))
  /\ In EmptyString
        (pathToArray (directory (child
           (new_BasePathClass {| opt_namespace := None; opt_directory := Some "a" |})
           (Some "b//c"))))
  /\ In EmptyString
        (pathToArray (directory (new_BasePathClass
           {| opt_namespace := None; opt_directory := Some "/" |}))).
Proof. repeat split; vm_compute; tauto. Qed.

(** ** [getName] *)

Section GetNameFacts.

Variable getResourcePath : string -> ResourcePath.

Local Abbreviation getName := (BasePath.getName getResourcePath).
Local Abbreviation resolvedPath := (BasePath.resolvedPath getResourcePath).
Local Abbreviation resolvedNamespace := (BasePath.resolvedNamespace getResourcePath).

(** [getName] written over [resolvedPath] and [resolvedNamespace]. *)
Lemma getName_unfold self name :
  getName self name =
  if isDefined (namespace self) && JS.includes name ":" then
    Throw NamespaceUnderBasePath
  else if negb (JS.matchesClassPlus JS.namespaceChar (resolvedNamespace self name)) then
    Throw (InvalidNamespace (resolvedNamespace self name))
  else if JS.isEmpty (resolvedPath self name) then
    Throw EmptyName
  else if negb (JS.matchesClassPlus JS.pathChar (resolvedPath self name)) then
    Throw (InvalidPath (resolvedPath self name))
  else if JS.includes (resolvedPath self name) ".." then
    Throw (DoubleDot (resolvedPath self name))
  else if isFalsy (namespace self) && negb (JS.includes name ":") then
    Normal (resolvedPath self name)
  else
    Normal (resolvedNamespace self name ++ ":" ++ resolvedPath self name).
Proof. reflexivity. Qed.

(** C5: in a context whose namespace is set, a name that contains [:] makes
    [getName] throw the error "Cannot define namespace under a base path."
    and no identifier is returned. *)
Theorem getName_namespace_under_base_path self ns name :
  namespace self = Some ns ->
  JS.includes name ":" = true ->
  getName self name = Throw NamespaceUnderBasePath
  /\ (forall id, getName self name <> Normal id).
Proof.
  intros Hns Hc.
  assert (H : getName self name = Throw NamespaceUnderBasePath).
  { rewrite getName_unfold, Hns, Hc. reflexivity. }
  split; [exact H|]. intros id. rewrite H. discriminate.
Qed.

Lemma length_append (a b : string) :
  String.length (a ++ b) = String.length a + String.length b.
Proof. induction a as [|c a IH]; simpl; [reflexivity | now rewrite IH]. Qed.

Lemma append_not_suffix (a b : string) :
  a ++ ":" ++ b <> b.
Proof.
  intros H. apply (f_equal String.length) in H.
  rewrite !length_append in H. simpl in H. lia.
Qed.

(** C6: when [getName] returns, the identifier is the bare path exactly when
    the context has no namespace and the name has no [:]; in every other
    case it is the namespace, [:], and the path. *)
Theorem getName_identifier_form self name id :
  getName self name = Normal id ->
  let bare := namespace self = None /\ JS.includes name ":" = false in
  (bare -> id = resolvedPath self name)
  /\ (~ bare -> id = resolvedNamespace self name ++ ":" ++ resolvedPath self name)
  /\ (id = resolvedPath self name <-> bare).
Proof.
  intros H bare. rewrite getName_unfold in H.
  destruct (isDefined (namespace self) && JS.includes name ":") eqn:E1; [discriminate|].
  destruct (JS.matchesClassPlus JS.namespaceChar (resolvedNamespace self name)) eqn:E2;
    [|discriminate].
  destruct (JS.isEmpty (resolvedPath self name)); [discriminate|].
  destruct (JS.matchesClassPlus JS.pathChar (resolvedPath self name)); [|discriminate].
  destruct (JS.includes (resolvedPath self name) ".."); [discriminate|].
  cbn [negb] in H.
  assert (Hfalsy : isFalsy (namespace self) = true -> namespace self = None).
  { unfold resolvedNamespace, BasePath.resolvedNamespace in E2.
    destruct (namespace self) as [ns|]; [|reflexivity].
    simpl. intros Hempty. unfold JS.matchesClassPlus in E2.
    rewrite Hempty in E2. discriminate. }
  destruct (isFalsy (namespace self) && negb (JS.includes name ":")) eqn:E3.
  - injection H as <-.
    apply andb_true_iff in E3. destruct E3 as [F C].
    apply negb_true_iff in C.
    assert (Hb : bare) by (split; [apply Hfalsy; exact F | exact C]).
    split; [reflexivity|]. split; [contradiction|]. tauto.
  - injection H as <-.
    assert (Hnb : ~ bare).
    { intros [Hn Hc]. rewrite Hn, Hc in E3. discriminate. }
    split; [contradiction|]. split; [reflexivity|].
    split; [intros Heq; exfalso; eapply append_not_suffix; exact Heq | contradiction].
Qed.

(** C7: for a context and a name that pass the namespace checks, [getName]
    throws "Empty name" iff the joined path has length zero; otherwise it
    throws the invalid-path error iff the path does not match
    [^[0-9a-z_\-/.]+$]; otherwise it throws the double-dot error iff the
    path contains [..]; otherwise it returns. *)
Theorem getName_path_checks_in_order self name :
  isDefined (namespace self) && JS.includes name ":" = false ->
  JS.matchesClassPlus JS.namespaceChar (resolvedNamespace self name) = true ->
  let path := resolvedPath self name in
  (getName self name = Throw EmptyName <-> String.length path = 0)
  /\ (String.length path <> 0 ->
      (getName self name = Throw (InvalidPath path)
       <-> JS.matchesClassPlus JS.pathChar path = false)
      /\ (JS.matchesClassPlus JS.pathChar path = true ->
          (getName self name = Throw (DoubleDot path)
           <-> JS.includes path ".." = true)
          /\ (JS.includes path ".." = false -> exists id, getName self name = Normal id))).
Proof.
  intros H1 H2 path. rewrite getName_unfold, H1, H2. cbn [negb].
  fold path. unfold JS.isEmpty.
  destruct (Nat.eqb (String.length path) 0) eqn:E;
    [apply Nat.eqb_eq in E | apply Nat.eqb_neq in E].
  - split; [tauto|]. intros Hne. contradiction.
  - destruct (JS.matchesClassPlus JS.pathChar path) eqn:E3; cbn [negb].
    + destruct (JS.includes path "..") eqn:E4.
      * split; [split; [discriminate | contradiction]|].
        intros _. split; [split; discriminate|].
        intros _. split; [tauto | discriminate].
      * destruct (isFalsy (namespace self) && negb (JS.includes name ":")).
        -- split; [split; [discriminate | contradiction]|].
           intros _. split; [split; discriminate|].
           intros _. split; [split; discriminate|].
           intros _. eexists. reflexivity.
        -- split; [split; [discriminate | contradiction]|].
           intros _. split; [split; discriminate|].
           intros _. split; [split; discriminate|].
           intros _. eexists. reflexivity.
    + split; [split; [discriminate | contradiction]|].
      intros _. split; [tauto | discriminate].
Qed.

End GetNameFacts.

(** Instances, with [getResourcePath] as the specification describes it and
    [default] as the host's default namespace. *)

Lemma getName_namespace_under_base_path_witness :
  namespace fixedNamespace = Some "x"
  /\ JS.includes "a:b" ":" = true
  /\ getName (getResourcePath_spec "default") fixedNamespace "a:b"
     = Throw NamespaceUnderBasePath
  /\ (forall id, getName (getResourcePath_spec "default") fixedNamespace "a:b" <> Normal id).
Proof.
  split; [reflexivity|]. split; [reflexivity|].
  apply (getName_namespace_under_base_path (getResourcePath_spec "default")
           fixedNamespace "x" "a:b"); reflexivity.
Defined.

Lemma getName_identifier_form_witness :
  getName (getResourcePath_spec "default") plainDirectory "foo" = Normal "dir/foo"
  /\ getName (getResourcePath_spec "default") plainDirectory "ns:foo" = Normal "ns:dir/foo"
  /\ ("dir/foo" = resolvedPath (getResourcePath_spec "default") plainDirectory "foo"
      <-> namespace plainDirectory = None /\ JS.includes "foo" ":" = false)
  /\ ("ns:dir/foo" = resolvedPath (getResourcePath_spec "default") plainDirectory "ns:foo"
      <-> namespace plainDirectory = None /\ JS.includes "ns:foo" ":" = false).
Proof.
  split; [reflexivity|]. split; [reflexivity|]. split.
  - apply (getName_identifier_form (getResourcePath_spec "default")
             plainDirectory "foo" "dir/foo"). reflexivity.
  - apply (getName_identifier_form (getResourcePath_spec "default")
             plainDirectory "ns:foo" "ns:dir/foo"). reflexivity.
Defined.

Lemma getName_path_checks_in_order_witness :
  getName (getResourcePath_spec "default") fixedNamespace "Foo" = Throw (InvalidPath "Foo")
  /\ getName (getResourcePath_spec "default") fixedNamespace "a..b" = Throw (DoubleDot "a..b").
Proof.
  split.
  - apply (getName_path_checks_in_order (getResourcePath_spec "default")
             fixedNamespace "Foo");
      [reflexivity | reflexivity | simpl; discriminate | reflexivity].
  - apply (getName_path_checks_in_order (getResourcePath_spec "default")
             fixedNamespace "a..b");
      [reflexivity | reflexivity | simpl; discriminate | reflexivity | reflexivity].
Defined.

End BasePathFacts.

(** * Properties of [SelectorClass] *)

Module SelectorFacts.
Import Selector.

(** ** The receiver is not modified *)

Lemma applyModifier_this entry f f' :
  applyModifier entry f = Some f' -> this f' = this f.
Proof.
  unfold applyModifier.
  destruct (get (fst entry) (args f)) as [value|]; [|congruence].
  destruct (snd entry value) as [pushed|]; [|discriminate].
  intros H. injection H as <-. reflexivity.
Qed.

Lemma applyModifiers_this entries : forall f f',
  applyModifiers entries f = Some f' -> this f' = this f.
Proof.
  induction entries as [|entry rest IH]; intros f f' H; simpl in H.
  - congruence.
  - destruct (applyModifier entry f) as [f1|] eqn:E; [|discriminate].
    rewrite (IH _ _ H). eapply applyModifier_this; eauto.
Qed.

Lemma pushGeneric_this entries : forall f,
  this (fold_left pushGeneric entries f) = this f.
Proof.
  induction entries as [|entry rest IH]; intros f; simpl; [reflexivity|].
  rewrite IH. unfold pushGeneric. destruct (snd entry); reflexivity.
Qed.

Lemma toString_frame_this self frame :
  toString_frame self = Some frame -> this frame = self.
Proof.
  unfold toString_frame.
  destruct (applyModifiers modifiers _) as [f1|] eqn:E; [|discriminate].
  intros H. injection H as <-.
  rewrite pushGeneric_this. apply applyModifiers_this in E. exact E.
Qed.

(** C8: [toString] leaves the receiver, and so its stored arguments, as they
    were (the special-cased keys are deleted from the copy [args]), and a
    second call returns the same string. *)
Theorem toString_pure self s self' :
  toString_run self = Some (s, self') ->
  self' = self
  /\ arguments self' = arguments self
  /\ toString_run self' = Some (s, self')
  /\ toString self' = toString self.
Proof.
  intros H.
  assert (Hself : self' = self).
  { unfold toString_run in H.
    destruct (Nat.eqb (List.length (arguments self)) 0).
    - congruence.
    - destruct (toString_frame self) as [frame|] eqn:E; [|discriminate].
      apply toString_frame_this in E. congruence. }
  subst self'. repeat split; assumption.
Qed.

Lemma toString_pure_witness :
  let self := {| target := "@e";
                 arguments := [("tag", Some (VStrings ["a"; "b"]));
                               ("limit", Some (VNumber 1))] |} in
  toString_run self = Some ("@e[tag=a, tag=b, limit=1]", self)
  /\ arguments self = [("tag", Some (VStrings ["a"; "b"])); ("limit", Some (VNumber 1))]
  /\ toString self = Some "@e[tag=a, tag=b, limit=1]".
Proof.
  intros self.
  assert (Hrun : toString_run self = Some ("@e[tag=a, tag=b, limit=1]", self))
    by reflexivity.
  split; [exact Hrun|].
  destruct (toString_pure self _ self Hrun) as [_ [Hargs [Hagain _]]].
  split; [exact Hargs|].
  unfold toString. rewrite Hagain. reflexivity.
Defined.

(** ** Which pairs carry a given key *)

Lemma get_delete_other name k obj :
  name <> k -> get k (delete name obj) = get k obj.
Proof.
  intros Hne. induction obj as [|[key value] rest IH]; [reflexivity|].
  unfold delete in *. cbn [filter fst get].
  destruct (String.eqb key name) eqn:E; cbn [negb].
  - apply String.eqb_eq in E. subst key.
    destruct (String.eqb name k) eqn:E'; [apply String.eqb_eq in E'; contradiction|].
    exact IH.
  - cbn [get]. destruct (String.eqb key k); [reflexivity | exact IH].
Qed.

Lemma undefinedAt_delete name k obj :
  undefinedAt k obj -> undefinedAt k (delete name obj).
Proof.
  intros H value Hin. apply filter_In in Hin. apply H. tauto.
Qed.

Lemma undefinedAt_delete_same k obj :
  undefinedAt k (delete k obj).
Proof.
  intros value Hin. apply filter_In in Hin. destruct Hin as [_ Hk].
  cbn in Hk. rewrite String.eqb_refl in Hk. discriminate.
Qed.

Lemma get_undefinedAt k obj :
  NoDup (map fst obj) -> get k obj = None -> undefinedAt k obj.
Proof.
  induction obj as [|[key value] rest IH]; intros Hnd Hget v Hin; [contradiction|].
  cbn in Hnd. inversion Hnd as [|? ? Hnotin Hnd']; subst.
  cbn [get] in Hget. destruct Hin as [Heq | Hin].
  - injection Heq as -> ->. rewrite String.eqb_refl in Hget. exact Hget.
  - destruct (String.eqb key k) eqn:E.
    + apply String.eqb_eq in E. subst key.
      exfalso. apply Hnotin. apply (in_map fst) in Hin. exact Hin.
    + exact (IH Hnd' Hget v Hin).
Qed.

Lemma filter_isKey_other k name pairs :
  name <> k -> (forall pair, In pair pairs -> fst pair = name) ->
  filter (isKey k) pairs = [].
Proof.
  intros Hne. induction pairs as [|pair rest IH]; intros H; [reflexivity|].
  cbn [filter]. unfold isKey at 1.
  rewrite (H pair (or_introl eq_refl)).
  destruct (String.eqb name k) eqn:E; [apply String.eqb_eq in E; contradiction|].
  apply IH. intros q Hq. apply H. right. exact Hq.
Qed.

(** A turn of the modifier loop for another key than [k]. *)
Lemma applyModifier_other k name m f f' :
  name <> k -> keyed name m ->
  applyModifier (name, m) f = Some f' ->
  filter (isKey k) (result f') = filter (isKey k) (result f)
  /\ get k (args f') = get k (args f)
  /\ (undefinedAt k (args f) -> undefinedAt k (args f')).
Proof.
  intros Hne Hkeyed. unfold applyModifier. cbn [fst snd].
  destruct (get name (args f)) as [value|].
  - destruct (m value) as [pushed|] eqn:Em; [|discriminate].
    intros H. injection H as <-. cbn [result args]. split; [|split].
    + rewrite filter_app, (filter_isKey_other k name pushed Hne).
      * apply app_nil_r.
      * intros pair Hin. exact (Hkeyed value pushed pair Em Hin).
    + apply get_delete_other. exact Hne.
    + apply undefinedAt_delete.
  - intros H. injection H as <-. tauto.
Qed.

(** The [forEach] over the remaining keys pushes nothing under a key whose
    entries hold [undefined]. *)
Lemma pushGeneric_other k entries : forall f,
  undefinedAt k entries ->
  filter (isKey k) (result (fold_left pushGeneric entries f)) = filter (isKey k) (result f).
Proof.
  induction entries as [|[key value] rest IH]; intros f H; [reflexivity|].
  cbn [fold_left]. rewrite IH.
  - unfold pushGeneric. cbn [fst snd]. destruct value as [v|]; [|reflexivity].
    cbn [result]. rewrite filter_app. cbn [filter]. unfold isKey at 2. cbn [fst].
    destruct (String.eqb key k) eqn:E.
    + apply String.eqb_eq in E. subst key.
      specialize (H (Some v) (or_introl eq_refl)). discriminate.
    + apply app_nil_r.
  - intros v Hin. apply H. right. exact Hin.
Qed.

Lemma keyed_score : keyed "score" modifier_score.
Proof.
  intros value pushed pair H Hin. destruct value; try discriminate.
  injection H as <-. destruct Hin as [<-|[]]. reflexivity.
Qed.

Lemma keyed_advancements : keyed "advancements" modifier_advancements.
Proof.
  intros value pushed pair H Hin. destruct value; try discriminate.
  injection H as <-. destruct Hin as [<-|[]]. reflexivity.
Qed.

Lemma keyed_predicate : keyed "predicate" modifier_predicate.
Proof.
  intros value pushed pair H Hin. destruct value; try discriminate; injection H as <-.
  - destruct Hin as [<-|[]]. reflexivity.
  - apply in_map_iff in Hin. destruct Hin as [x [<- _]]. reflexivity.
Qed.

Lemma keyed_team : keyed "team" modifier_team.
Proof.
  intros value pushed pair H Hin. destruct value as [| | [|] | | | |]; try discriminate;
    injection H as <-; destruct Hin as [<-|[]]; reflexivity.
Qed.

Lemma filter_isKey_tag tags :
  filter (isKey "tag") (map (fun tag_ => ("tag", tag_)) tags)
  = map (fun tag_ => ("tag", tag_)) tags.
Proof.
  induction tags as [|t rest IH]; [reflexivity|].
  cbn [map filter]. unfold isKey at 1. cbn [fst].
  rewrite String.eqb_refl, IH. reflexivity.
Qed.

(** The five turns of the modifier loop, seen from the key [tag]. *)
Lemma applyModifiers_tag f f' :
  applyModifiers modifiers f = Some f' ->
  result f = [] ->
  (forall pushed,
     option_map modifier_tag (get "tag" (args f)) = Some (Some pushed) ->
     filter (isKey "tag") (result f') = pushed /\ undefinedAt "tag" (args f'))
  /\ (undefinedAt "tag" (args f) -> get "tag" (args f) = None ->
      filter (isKey "tag") (result f') = [] /\ undefinedAt "tag" (args f')).
Proof.
  intros H Hres. unfold modifiers in H. cbn [applyModifiers] in H.
  destruct (applyModifier ("score", modifier_score) f) as [f1|] eqn:S1; [|discriminate].
  destruct (applyModifier ("advancements", modifier_advancements) f1) as [f2|] eqn:S2;
    [|discriminate].
  destruct (applyModifier ("tag", modifier_tag) f2) as [f3|] eqn:S3; [|discriminate].
  destruct (applyModifier ("predicate", modifier_predicate) f3) as [f4|] eqn:S4;
    [|discriminate].
  destruct (applyModifier ("team", modifier_team) f4) as [f5|] eqn:S5; [|discriminate].
  injection H as <-.
  destruct (applyModifier_other "tag" "score" _ _ _ ltac:(discriminate) keyed_score S1)
    as [R1 [G1 U1]].
  destruct (applyModifier_other "tag" "advancements" _ _ _ ltac:(discriminate) keyed_advancements S2)
    as [R2 [G2 U2]].
  destruct (applyModifier_other "tag" "predicate" _ _ _ ltac:(discriminate) keyed_predicate S4)
    as [R4 [G4 U4]].
  destruct (applyModifier_other "tag" "team" _ _ _ ltac:(discriminate) keyed_team S5)
    as [R5 [G5 U5]].
  rewrite R5, R4.
  assert (R0 : filter (isKey "tag") (result f2) = []).
  { rewrite R2, R1, Hres. reflexivity. }
  assert (G0 : get "tag" (args f2) = get "tag" (args f)) by congruence.
  unfold applyModifier in S3. cbn [fst snd] in S3. rewrite G0 in S3.
  split.
  - intros pushed Hp.
    destruct (get "tag" (args f)) as [value|]; [|discriminate].
    cbn in Hp. injection Hp as Hp. rewrite Hp in S3. injection S3 as <-.
    cbn [result args]. split.
    + rewrite filter_app, R0. cbn [app].
      unfold modifier_tag in Hp.
      destruct value; try discriminate; injection Hp as <-.
      * exact (filter_isKey_tag [s]).
      * apply filter_isKey_tag.
    + apply U5, U4. apply undefinedAt_delete_same.
  - intros Hu Hnone. rewrite Hnone in S3. injection S3 as <-.
    split; [exact R0|]. auto.
Qed.

(** The pairs under the key [tag] in the frame that [toString] reaches. *)
Lemma tag_pairs_of_frame self frame :
  NoDup (map fst (arguments self)) ->
  toString_frame self = Some frame ->
  let tagPairs := filter (isKey "tag") (result frame) in
  (forall tags, get "tag" (arguments self) = Some (VStrings tags) ->
     tagPairs = map (fun tag_ => ("tag", tag_)) tags)
  /\ (forall tag, get "tag" (arguments self) = Some (VString tag) ->
       tagPairs = [("tag", tag)])
  /\ (get "tag" (arguments self) = None -> tagPairs = [])
  /\ (arguments self <> [] ->
      toString self = Some (render (target self) (result frame)))
  /\ toString {| target := "@e"; arguments := [("tag", Some (VStrings ["a"; "b"]))] |}
     = Some "@e[tag=a, tag=b]".
Proof.
  intros Hnd Hframe tagPairs.
  assert (Hrun := Hframe). unfold toString_frame in Hrun.
  destruct (applyModifiers modifiers _) as [f1|] eqn:E; [|discriminate].
  injection Hrun as Hrun.
  destruct (applyModifiers_tag _ _ E eq_refl) as [Hsome Hnone]. cbn [args] in *.
  assert (Hgen : undefinedAt "tag" (args f1) ->
                 tagPairs = filter (isKey "tag") (result f1)).
  { intros Hu. unfold tagPairs. rewrite <- Hrun. apply pushGeneric_other. exact Hu. }
  split; [|split; [|split; [|split]]].
  - intros tags Ht. rewrite Ht in Hsome.
    destruct (Hsome _ eq_refl) as [Hr Hu]. rewrite (Hgen Hu). exact Hr.
  - intros tag Ht. rewrite Ht in Hsome.
    destruct (Hsome _ eq_refl) as [Hr Hu]. rewrite (Hgen Hu). exact Hr.
  - intros Ht.
    destruct (Hnone (get_undefinedAt _ _ Hnd Ht) Ht) as [Hr Hu].
    rewrite (Hgen Hu). exact Hr.
  - intros Hne. unfold toString, toString_run.
    destruct (arguments self) as [|entry rest] eqn:Ea; [contradiction|].
    cbn [List.length Nat.eqb]. rewrite Hframe. cbn [option_map fst].
    rewrite (toString_frame_this _ _ Hframe). reflexivity.
  - reflexivity.
Qed.

(** ** Arguments whose values are all [undefined] *)

Lemma allUndefined_get name obj :
  allUndefined obj -> get name obj = None.
Proof.
  induction obj as [|[key value] rest IH]; intros H; [reflexivity|].
  cbn [get]. destruct (String.eqb key name).
  - apply (H key). left. reflexivity.
  - apply IH. intros k v Hin. apply (H k). right. exact Hin.
Qed.

Lemma allUndefined_applyModifiers entries f :
  allUndefined (args f) -> applyModifiers entries f = Some f.
Proof.
  intros H. induction entries as [|entry rest IH]; [reflexivity|].
  cbn [applyModifiers]. unfold applyModifier.
  rewrite (allUndefined_get _ _ H). exact IH.
Qed.

Lemma allUndefined_pushGeneric entries : forall f,
  allUndefined entries -> fold_left pushGeneric entries f = f.
Proof.
  induction entries as [|[key value] rest IH]; intros f H; [reflexivity|].
  cbn [fold_left]. unfold pushGeneric at 2. cbn [snd].
  rewrite (H key value (or_introl eq_refl)).
  apply IH. intros k v Hin. apply (H k). right. exact Hin.
Qed.

(** C10: when the arguments object has at least one key and every value is
    [undefined], [toString] returns the target followed by [[]]: the fast
    path counts keys, and both loops skip undefined values. *)
Theorem toString_all_undefined self :
  arguments self <> [] ->
  allUndefined (arguments self) ->
  toString self = Some (target self ++ "[]").
Proof.
  intros Hne Hall. unfold toString, toString_run.
  destruct (arguments self) as [|entry rest] eqn:Ea; [contradiction|].
  cbn [List.length Nat.eqb].
  unfold toString_frame. rewrite Ea.
  rewrite allUndefined_applyModifiers by exact Hall.
  cbn [args]. rewrite allUndefined_pushGeneric by exact Hall.
  reflexivity.
Qed.

Lemma toString_all_undefined_witness :
  let self := {| target := "@e"; arguments := [("tag", None); ("limit", None)] |} in
  arguments self <> []
  /\ allUndefined (arguments self)
  /\ toString self = Some "@e[]".
Proof.
  intros self.
  assert (Hne : arguments self <> []) by discriminate.
  assert (Hall : allUndefined (arguments self)).
  { intros key value [H|[H|[]]]; injection H as _ <-; reflexivity. }
  split; [exact Hne|]. split; [exact Hall|].
  exact (toString_all_undefined self Hne Hall).
Defined.

(** ** The generic branch on arrays *)

(** C1 (the code departs from the claim): in the generic branch a
    two-element bound is rendered by the array's own [toString], which
    joins the bounds with a comma; [{distance: [2, null]}] on [@e] gives
    [@e[distance=2,]] and not [@e[distance=2..]].  [parseScore] renders the
    same bound as [2..]. *)
Theorem toString_distance_bounds :
  (forall target min max,
     toString {| target := target; arguments := [("distance", Some (VBounds min max))] |}
     = Some (target ++ "[distance="
                    ++ (bound_toString min ++ "," ++ bound_toString max) ++ "]"))
  /\ toString {| target := "@e";
                 arguments := [("distance", Some (VBounds (Some 2%Z) None))] |}
     = Some "@e[distance=2,]"
  /\ toString {| target := "@e";
                 arguments := [("distance", Some (VBounds (Some 2%Z) None))] |}
     <> Some "@e[distance=2..]"
  /\ parseScore [("distance", RBounds (Some 2%Z) None)] = "{distance=2..}".
Proof.
  split; [intros; reflexivity|].
  split; [reflexivity|]. split; [vm_compute; discriminate | reflexivity].
Qed.

(** C2 (the code departs from the claim): a [type] filter given as an array
    goes through the generic branch and yields a single pair whose value is
    the comma-joined array, where the [tag] modifier yields one pair per
    element; the example of the source's documentation,
    [{type: [!minecraft:cow, !minecraft:skeleton]}], is rendered
    [@e[type=!minecraft:cow,!minecraft:skeleton]]. *)
Theorem toString_type_array :
  (forall target types,
     toString {| target := target; arguments := [("type", Some (VStrings types))] |}
     = Some (target ++ "[type=" ++ JS.join "," types ++ "]"))
  /\ toString {| target := "@e";
                 arguments := [("type", Some (VStrings ["!minecraft:cow";
                                                        "!minecraft:skeleton"]))] |}
     = Some "@e[type=!minecraft:cow,!minecraft:skeleton]"
  /\ toString {| target := "@e";
                 arguments := [("type", Some (VStrings ["!minecraft:cow";
                                                        "!minecraft:skeleton"]))] |}
     <> Some "@e[type=!minecraft:cow, type=!minecraft:skeleton]"
  /\ toString {| target := "@e";
                 arguments := [("tag", Some (VStrings ["!minecraft:cow";
                                                       "!minecraft:skeleton"]))] |}
     = Some "@e[tag=!minecraft:cow, tag=!minecraft:skeleton]".
Proof.
  split; [intros; reflexivity|].
  split; [reflexivity|]. split; [vm_compute; discriminate | reflexivity].
Qed.

(** ** Construction *)




End SelectorFacts.

(** * Further properties of [trimSlashes], [pathToArray] and [child] *)

Module BasePathMore.
Import BasePath BasePathFacts.

(** ** Strings *)

Lemma allChars_app cls a b :
  JS.allChars cls (a ++ b) = JS.allChars cls a && JS.allChars cls b.
Proof.
  induction a as [|c a IH]; simpl; [reflexivity|].
  rewrite IH. apply andb_assoc.
Qed.

Lemma append_empty_r (s : string) : s ++ EmptyString = s.
Proof. induction s as [|c s IH]; simpl; [reflexivity | now rewrite IH]. Qed.

Lemma append_assoc (a b c : string) : (a ++ b) ++ c = a ++ b ++ c.
Proof. induction a as [|x a IH]; simpl; [reflexivity | now rewrite IH]. Qed.

Lemma startsWithSlash_app a b :
  a <> EmptyString -> JS.startsWithSlash (a ++ b) = JS.startsWithSlash a.
Proof. destruct a; [congruence | reflexivity]. Qed.

Lemma endsWithSlash_app a b :
  b <> EmptyString -> JS.endsWithSlash (a ++ b) = JS.endsWithSlash b.
Proof.
  intros Hb. induction a as [|c a IH]; [reflexivity|].
  simpl. destruct (a ++ b) eqn:E; [|exact IH].
  destruct a; simpl in E; [contradiction | discriminate].
Qed.

Lemma allSlashes_endsWithSlash s :
  JS.allSlashes s = true -> s <> EmptyString -> JS.endsWithSlash s = true.
Proof.
  induction s as [|c s IH]; [congruence|].
  intros H _. apply allSlashes_cons in H. destruct H as [Hc Hs].
  destruct s as [|c' s']; [exact Hc|].
  apply IH; [exact Hs | discriminate].
Qed.

(** ** The two replacements *)

Lemma replaceLeadingSlashes_id s :
  JS.startsWithSlash s = false -> JS.replaceLeadingSlashes s = s.
Proof. destruct s as [|c s]; simpl; [reflexivity|]. intros ->. reflexivity. Qed.

Lemma replaceTrailingSlashes_allSlashes s :
  JS.allSlashes s = true -> JS.replaceTrailingSlashes s = EmptyString.
Proof.
  destruct s as [|c s]; [reflexivity|].
  unfold JS.allSlashes. cbn [JS.replaceTrailingSlashes]. intros ->. reflexivity.
Qed.

Lemma replaceTrailingSlashes_id s :
  JS.endsWithSlash s = false -> JS.replaceTrailingSlashes s = s.
Proof.
  induction s as [|c s IH]; [reflexivity|].
  intros E. cbn [JS.replaceTrailingSlashes].
  destruct (JS.allChars _ (String c s)) eqn:A.
  - rewrite (allSlashes_endsWithSlash (String c s) A) in E by discriminate.
    discriminate.
  - f_equal. destruct s as [|c' s']; [reflexivity|]. apply IH. exact E.
Qed.

Lemma replaceTrailingSlashes_app s t :
  JS.allSlashes t = true ->
  JS.replaceTrailingSlashes (s ++ t) = JS.replaceTrailingSlashes s.
Proof.
  intros Ht. induction s as [|c s IH].
  - apply replaceTrailingSlashes_allSlashes. exact Ht.
  - change (String c s ++ t) with (String c (s ++ t)).
    cbn [JS.replaceTrailingSlashes].
    change (JS.allChars (fun d => Ascii.eqb d JS.slash) (String c (s ++ t)))
      with (Ascii.eqb c JS.slash && JS.allChars (fun d => Ascii.eqb d JS.slash) (s ++ t)).
    change (JS.allChars (fun d => Ascii.eqb d JS.slash) (String c s))
      with (Ascii.eqb c JS.slash && JS.allChars (fun d => Ascii.eqb d JS.slash) s).
    rewrite allChars_app. unfold JS.allSlashes in Ht. rewrite Ht, andb_true_r, IH.
    reflexivity.
Qed.

Lemma replaceLeadingSlashes_decompose s :
  exists a, s = a ++ JS.replaceLeadingSlashes s /\ JS.allSlashes a = true.
Proof.
  induction s as [|c s [a [Ha Hs]]].
  - exists EmptyString. split; reflexivity.
  - simpl. destruct (Ascii.eqb c JS.slash) eqn:E.
    + exists (String c a). split.
      * simpl. f_equal. exact Ha.
      * unfold JS.allSlashes in *. simpl. rewrite E. exact Hs.
    + exists EmptyString. split; reflexivity.
Qed.

Lemma replaceTrailingSlashes_decompose s :
  exists b, s = JS.replaceTrailingSlashes s ++ b /\ JS.allSlashes b = true.
Proof.
  induction s as [|c s [b [Hb Hs]]].
  - exists EmptyString. split; reflexivity.
  - cbn [JS.replaceTrailingSlashes].
    destruct (JS.allChars _ (String c s)) eqn:A.
    + exists (String c s). split; [reflexivity | exact A].
    + exists b. split; [|exact Hs]. simpl. f_equal. exact Hb.
Qed.

(** X1: [trimSlashes] is idempotent, and so is the constructor: building a
    context again from the namespace and the directory of a constructed
    context gives that context. *)
Theorem trimSlashes_idempotent str basePath :
  trimSlashes (trimSlashes str) = trimSlashes str
  /\ new_BasePathClass
       {| opt_namespace := namespace (new_BasePathClass basePath);
          opt_directory := directory (new_BasePathClass basePath) |}
     = new_BasePathClass basePath.
Proof.
  assert (H : forall o, trimSlashes (trimSlashes o) = trimSlashes o).
  { intros o. destruct (trimSlashes o) as [d|] eqn:E; [|reflexivity].
    destruct (trimSlashes_trimmed _ _ E) as [Hs He].
    cbn. rewrite (replaceLeadingSlashes_id d Hs), (replaceTrailingSlashes_id d He).
    reflexivity. }
  split; [apply H|].
  unfold new_BasePathClass. cbn [namespace directory opt_namespace opt_directory].
  rewrite H. reflexivity.
Qed.

(** X2: [trimSlashes] returns its argument unchanged exactly when the
    argument neither starts nor ends with a slash. *)
Theorem trimSlashes_fixed_point s :
  trimSlashes (Some s) = Some s
  <-> JS.startsWithSlash s = false /\ JS.endsWithSlash s = false.
Proof.
  split.
  - apply trimSlashes_trimmed.
  - intros [Hs He]. cbn.
    rewrite (replaceLeadingSlashes_id s Hs), (replaceTrailingSlashes_id s He).
    reflexivity.
Qed.

(** X3: [trimSlashes] removes slashes only: the argument is the result with
    a run of slashes before it and a run of slashes after it. *)
Theorem trimSlashes_removes_slashes_only s :
  exists before after,
    s = before ++ orEmpty (trimSlashes (Some s)) ++ after
    /\ JS.allSlashes before = true /\ JS.allSlashes after = true.
Proof.
  destruct (replaceLeadingSlashes_decompose s) as [a [Ha Hsa]].
  destruct (replaceTrailingSlashes_decompose (JS.replaceLeadingSlashes s)) as [b [Hb Hsb]].
  exists a, b. cbn. split; [|split; assumption].
  rewrite <- Hb. exact Ha.
Qed.

(** ** Splitting and joining *)

Lemma join_cons sep x xs :
  xs <> [] -> JS.join sep (x :: xs) = x ++ sep ++ JS.join sep xs.
Proof. destruct xs; [congruence | reflexivity]. Qed.

Lemma join_split s :
  JS.join "/" (JS.split JS.slash s) = s.
Proof.
  induction s as [|c s IH]; [reflexivity|].
  rewrite split_cons. destruct (Ascii.eqb c JS.slash) eqn:E.
  - apply Ascii.eqb_eq in E. subst c.
    rewrite join_cons by apply split_nonempty. rewrite IH. reflexivity.
  - destruct (JS.split JS.slash s) as [|piece pieces] eqn:S.
    + exfalso. eapply split_nonempty. exact S.
    + destruct pieces as [|q qs].
      * cbn in IH. cbn. f_equal. exact IH.
      * rewrite join_cons in IH by discriminate.
        rewrite join_cons by discriminate.
        cbn [append]. f_equal. exact IH.
Qed.

Lemma split_noSlash s :
  Forall (fun segment => JS.noSlash segment = true) (JS.split JS.slash s).
Proof.
  induction s as [|c s IH]; [repeat constructor|].
  rewrite split_cons. destruct (Ascii.eqb c JS.slash) eqn:E.
  - constructor; [reflexivity | exact IH].
  - destruct (JS.split JS.slash s) as [|piece pieces].
    + constructor; [|constructor]. unfold JS.noSlash. simpl. rewrite E. reflexivity.
    + inversion IH as [|? ? Hp Hps]; subst. constructor; [|exact Hps].
      unfold JS.noSlash in *. simpl. rewrite E. exact Hp.
Qed.

Lemma join_app sep xs ys :
  xs <> [] -> ys <> [] ->
  JS.join sep (xs ++ ys) = JS.join sep xs ++ sep ++ JS.join sep ys.
Proof.
  intros Hx Hy. induction xs as [|x xs IH]; [congruence|].
  destruct xs as [|x' xs'].
  - cbn [app]. rewrite join_cons by exact Hy. reflexivity.
  - change ((x :: x' :: xs') ++ ys)%list with (x :: ((x' :: xs') ++ ys)%list).
    rewrite join_cons by discriminate.
    rewrite IH by discriminate.
    rewrite (join_cons sep x (x' :: xs')) by discriminate.
    rewrite !append_assoc. reflexivity.
Qed.

(** X4: [pathToArray] cuts a path into segments without losing anything:
    the array is never empty, no segment contains a slash, and joining the
    segments with slashes gives the path back (the empty string for an
    undefined path). *)
Theorem pathToArray_join path :
  JS.join "/" (pathToArray path) = orEmpty path
  /\ pathToArray path <> []
  /\ Forall (fun segment => JS.noSlash segment = true) (pathToArray path).
Proof.
  unfold pathToArray. fold (orEmpty path). split; [apply join_split|].
  split; [apply split_nonempty | apply split_noSlash].
Qed.

(** ** [child] *)

Lemma pathToArray_orEmpty path :
  pathToArray path = JS.split JS.slash (orEmpty path).
Proof. reflexivity. Qed.

Lemma child_directory_joined self childDirectory :
  directory (child self childDirectory)
  = trimSlashes
      (Some (orEmpty (directory self) ++ "/" ++ orEmpty (trimSlashes childDirectory))).
Proof.
  unfold child, new_BasePathClass. cbn [directory opt_directory].
  rewrite !pathToArray_orEmpty.
  rewrite join_app by apply split_nonempty.
  rewrite !join_split. reflexivity.
Qed.

(** X5: [child] keeps the namespace, and the directory it stores is the
    parent's directory and the trimmed child directory (each the empty
    string when undefined) put together with one slash and trimmed again;
    the result has no slash at either end. *)
Theorem child_directory self childDirectory :
  namespace (child self childDirectory) = namespace self
  /\ exists d,
       directory (child self childDirectory) = Some d
       /\ trimSlashes
            (Some (orEmpty (directory self) ++ "/" ++ orEmpty (trimSlashes childDirectory)))
          = Some d
       /\ JS.startsWithSlash d = false /\ JS.endsWithSlash d = false.
Proof.
  split; [reflexivity|].
  rewrite child_directory_joined.
  destruct (trimSlashes (Some _)) as [d|] eqn:E; [|discriminate].
  exists d. split; [reflexivity|]. split; [reflexivity|].
  exact (trimSlashes_trimmed _ _ E).
Qed.

Lemma isClean_spec s :
  isClean s = true <->
  s <> EmptyString /\ JS.startsWithSlash s = false /\ JS.endsWithSlash s = false.
Proof.
  unfold isClean, JS.isEmpty. rewrite !andb_true_iff, !negb_true_iff.
  destruct s as [|c s]; simpl.
  - split; [intros [[H _] _]; discriminate | intros [H _]; congruence].
  - split; [intros [[_ H1] H2] | intros [_ [H1 H2]]]; repeat split;
      try assumption; discriminate.
Qed.

Lemma isClean_trimSlashes s :
  isClean s = true -> trimSlashes (Some s) = Some s.
Proof.
  intros H. apply isClean_spec in H. destruct H as [_ [Hs He]]. cbn.
  rewrite (replaceLeadingSlashes_id s Hs), (replaceTrailingSlashes_id s He).
  reflexivity.
Qed.

Lemma isClean_join a b :
  isClean a = true -> isClean b = true -> isClean (a ++ "/" ++ b) = true.
Proof.
  intros Ha Hb. apply isClean_spec in Ha. apply isClean_spec in Hb.
  destruct Ha as [Ha [Hsa _]]. destruct Hb as [Hb [_ Heb]].
  apply isClean_spec. split; [|split].
  - destruct a; [congruence | discriminate].
  - rewrite startsWithSlash_app by exact Ha. exact Hsa.
  - rewrite endsWithSlash_app by discriminate.
    change ("/" ++ b) with (String JS.slash b).
    destruct b as [|c b]; [congruence | exact Heb].
Qed.

Lemma child_clean self d a :
  directory self = Some d -> isClean d = true -> isClean a = true ->
  directory (child self (Some a)) = Some (d ++ "/" ++ a).
Proof.
  intros Hd Hcd Hca.
  rewrite child_directory_joined.
  rewrite Hd, (isClean_trimSlashes a Hca). cbn [orEmpty].
  apply isClean_trimSlashes. apply isClean_join; assumption.
Qed.

Lemma filterDefined_map_Some {A : Type} (xs : list A) :
  JS.filterDefined (map Some xs) = xs.
Proof. induction xs as [|x xs IH]; simpl; [reflexivity | now rewrite IH]. Qed.

Lemma includes_nil needle :
  JS.includes EmptyString needle = String.prefix needle EmptyString || false.
Proof. reflexivity. Qed.

Lemma includes_cons c s needle :
  JS.includes (String c s) needle
  = String.prefix needle (String c s) || JS.includes s needle.
Proof. reflexivity. Qed.

Lemma prefix_empty s : String.prefix EmptyString s = true.
Proof. destruct s; reflexivity. Qed.

Lemma prefix_app needle : forall a b,
  String.prefix needle a = true -> String.prefix needle (a ++ b) = true.
Proof.
  induction needle as [|x needle IH]; intros a b H; [apply prefix_empty|].
  destruct a as [|y a]; [discriminate|].
  simpl in *. destruct (ascii_dec x y); [apply IH; exact H | discriminate].
Qed.

Lemma includes_app_l a b needle :
  JS.includes a needle = true -> JS.includes (a ++ b) needle = true.
Proof.
  induction a as [|c a IH]; intros H.
  - rewrite includes_nil, orb_false_r in H.
    apply (prefix_app needle EmptyString b) in H. cbn [append] in *.
    destruct b as [|c b]; [rewrite includes_nil | rewrite includes_cons];
      rewrite H; reflexivity.
  - change (String c a ++ b) with (String c (a ++ b)).
    rewrite includes_cons in *. apply orb_true_iff in H. apply orb_true_iff.
    destruct H as [H|H].
    + left. exact (prefix_app needle (String c a) b H).
    + right. exact (IH H).
Qed.

Lemma includes_char_head x s :
  JS.includes (String x s) (String x EmptyString) = true.
Proof.
  rewrite includes_cons. simpl.
  destruct (ascii_dec x x); [rewrite prefix_empty; reflexivity | contradiction].
Qed.

Lemma includes_char_allChars cls x s :
  cls x = false -> JS.allChars cls s = true ->
  JS.includes s (String x EmptyString) = false.
Proof.
  intros Hx. induction s as [|c s IH]; intros H; [reflexivity|].
  simpl in H. apply andb_true_iff in H. destruct H as [Hc Hs].
  rewrite includes_cons, (IH Hs), orb_false_r. simpl.
  destruct (ascii_dec x c); [subst; congruence | reflexivity].
Qed.

(** A string is cut at its first colon in one way only. *)
Lemma colon_decomposition_unique ns : forall ns' path path',
  JS.includes ns ":" = false -> JS.includes ns' ":" = false ->
  ns ++ ":" ++ path = ns' ++ ":" ++ path' ->
  ns = ns' /\ path = path'.
Proof.
  induction ns as [|c ns IH]; intros ns' path path' H H' E.
  - destruct ns' as [|c' ns'].
    + simpl in E. injection E as E. split; [reflexivity | exact E].
    + simpl in E. injection E as Ec _. subst c'.
      rewrite includes_char_head in H'. discriminate.
  - destruct ns' as [|c' ns'].
    + simpl in E. injection E as Ec _. subst c.
      rewrite includes_char_head in H. discriminate.
    + simpl in E. injection E as Ec E. subst c'.
      rewrite includes_cons in H, H'.
      apply orb_false_iff in H. apply orb_false_iff in H'.
      destruct (IH ns' path path' (proj2 H) (proj2 H') E) as [-> ->].
      split; reflexivity.
Qed.

(** ** [getName] *)

Section GetNameMore.

Variable getResourcePath : string -> ResourcePath.

Local Abbreviation getName := (BasePath.getName getResourcePath).
Local Abbreviation resolvedPath := (BasePath.resolvedPath getResourcePath).
Local Abbreviation resolvedNamespace := (BasePath.resolvedNamespace getResourcePath).

(** The joined path starts with the directory. *)
Lemma resolvedPath_directory self name d :
  directory self = Some d ->
  resolvedPath self name =
  match fullPath (getResourcePath name) with
  | [] => d
  | segments => d ++ "/" ++ JS.join "/" segments
  end.
Proof.
  intros Hd. unfold BasePath.resolvedPath. rewrite Hd.
  cbn [JS.filterDefined]. rewrite filterDefined_map_Some.
  destruct (fullPath (getResourcePath name)) as [|x xs]; [reflexivity|].
  apply join_cons. discriminate.
Qed.

Lemma resolvedPath_no_directory self name :
  directory self = None ->
  resolvedPath self name = JS.join "/" (fullPath (getResourcePath name)).
Proof.
  intros Hd. unfold BasePath.resolvedPath. rewrite Hd.
  cbn [JS.filterDefined]. rewrite filterDefined_map_Some. reflexivity.
Qed.

Lemma resolvedPath_extends self name d :
  directory self = Some d -> exists rest, resolvedPath self name = d ++ rest.
Proof.
  intros Hd. rewrite (resolvedPath_directory self name d Hd).
  destruct (fullPath (getResourcePath name)).
  - exists EmptyString. symmetry. apply append_empty_r.
  - eexists. reflexivity.
Qed.

(** X6: two nested children of a context whose directory is [d], made with
    directories [a] and [b] (all three non-empty, without a slash at either
    end), store [d/a/b], and a name resolved under the inner child gets the
    path [d/a/b/] followed by the name's own segments joined by slashes. *)
Theorem nested_children_path self d a b name :
  directory self = Some d ->
  isClean d = true -> isClean a = true -> isClean b = true ->
  fullPath (getResourcePath name) <> [] ->
  directory (child (child self (Some a)) (Some b)) = Some (d ++ "/" ++ a ++ "/" ++ b)
  /\ resolvedPath (child (child self (Some a)) (Some b)) name
     = d ++ "/" ++ a ++ "/" ++ b ++ "/" ++ JS.join "/" (fullPath (getResourcePath name)).
Proof.
  intros Hd Hcd Hca Hcb Hfp.
  assert (H1 : directory (child self (Some a)) = Some (d ++ "/" ++ a))
    by (apply child_clean; assumption).
  assert (H2 : directory (child (child self (Some a)) (Some b))
               = Some (d ++ "/" ++ a ++ "/" ++ b)).
  { rewrite (child_clean _ _ b H1 (isClean_join d a Hcd Hca) Hcb).
    rewrite !append_assoc. reflexivity. }
  split; [exact H2|].
  rewrite (resolvedPath_directory _ name _ H2).
  destruct (fullPath (getResourcePath name)) as [|x xs]; [congruence|].
  rewrite !append_assoc. reflexivity.
Qed.

Lemma trimSlashes_join x y :
  JS.startsWithSlash x = false -> JS.endsWithSlash x = false ->
  JS.startsWithSlash y = false -> JS.endsWithSlash y = false ->
  trimSlashes (Some (x ++ "/" ++ y)) = Some (joinDirectories x y).
Proof.
  intros Hsx Hex Hsy Hey. unfold joinDirectories.
  destruct x as [|c x'].
  - cbn. rewrite (replaceLeadingSlashes_id y Hsy), (replaceTrailingSlashes_id y Hey).
    reflexivity.
  - destruct y as [|c' y'].
    + cbn [JS.isEmpty String.length Nat.eqb]. unfold trimSlashes. cbn [option_map]. f_equal.
      rewrite replaceLeadingSlashes_id
        by (rewrite startsWithSlash_app by discriminate; exact Hsx).
      rewrite replaceTrailingSlashes_app by reflexivity.
      apply replaceTrailingSlashes_id. exact Hex.
    + cbn [JS.isEmpty String.length Nat.eqb].
      apply isClean_trimSlashes. apply isClean_join; apply isClean_spec;
        (split; [discriminate | split; assumption]).
Qed.

Lemma joinDirectories_trimmed x y :
  JS.startsWithSlash x = false -> JS.endsWithSlash x = false ->
  JS.startsWithSlash y = false -> JS.endsWithSlash y = false ->
  JS.startsWithSlash (joinDirectories x y) = false
  /\ JS.endsWithSlash (joinDirectories x y) = false.
Proof.
  intros Hsx Hex Hsy Hey.
  exact (trimSlashes_trimmed _ _ (trimSlashes_join x y Hsx Hex Hsy Hey)).
Qed.

Lemma joinDirectories_assoc x y z :
  joinDirectories (joinDirectories x y) z = joinDirectories x (joinDirectories y z).
Proof.
  unfold joinDirectories.
  destruct x as [|cx x]; destruct y as [|cy y]; destruct z as [|cz z];
    cbn; try reflexivity.
  f_equal. rewrite append_assoc. reflexivity.
Qed.

Lemma orEmpty_trimSlashes_trimmed str :
  JS.startsWithSlash (orEmpty (trimSlashes str)) = false
  /\ JS.endsWithSlash (orEmpty (trimSlashes str)) = false.
Proof.
  destruct (trimSlashes str) as [t|] eqn:E.
  - exact (trimSlashes_trimmed _ _ E).
  - split; reflexivity.
Qed.

Lemma child_directory_join self childDirectory :
  JS.startsWithSlash (orEmpty (directory self)) = false ->
  JS.endsWithSlash (orEmpty (directory self)) = false ->
  directory (child self childDirectory)
  = Some (joinDirectories (orEmpty (directory self))
                          (orEmpty (trimSlashes childDirectory))).
Proof.
  intros Hs He. rewrite child_directory_joined.
  destruct (orEmpty_trimSlashes_trimmed childDirectory) as [Hs' He'].
  apply trimSlashes_join; assumption.
Qed.

(** X7: for a context whose directory has no slash at either end (as every
    constructed context has), the directory of a child is the parent's
    directory when the trimmed child directory is empty or undefined, the
    trimmed child directory when the parent's is empty or undefined, and
    otherwise the two with one slash between them. *)
Theorem child_directory_cases self childDirectory :
  JS.startsWithSlash (orEmpty (directory self)) = false ->
  JS.endsWithSlash (orEmpty (directory self)) = false ->
  let parent := orEmpty (directory self) in
  let trimmed := orEmpty (trimSlashes childDirectory) in
  (trimmed = EmptyString -> directory (child self childDirectory) = Some parent)
  /\ (parent = EmptyString -> directory (child self childDirectory) = Some trimmed)
  /\ (parent <> EmptyString -> trimmed <> EmptyString ->
      directory (child self childDirectory) = Some (parent ++ "/" ++ trimmed)).
Proof.
  intros Hs He parent trimmed.
  rewrite (child_directory_join self childDirectory Hs He).
  fold parent trimmed. unfold joinDirectories.
  split; [|split].
  - intros ->. destruct parent; reflexivity.
  - intros ->. reflexivity.
  - intros Hp Ht. destruct parent; [congruence|]. destruct trimmed; [congruence|].
    reflexivity.
Qed.

(** X18: two derivations in a row amount to one: the child of a child is
    the child made in one step with the two trimmed directories joined by a
    slash. *)
Theorem child_of_child self a b :
  JS.startsWithSlash (orEmpty (directory self)) = false ->
  JS.endsWithSlash (orEmpty (directory self)) = false ->
  child (child self a) b
  = child self (Some (orEmpty (trimSlashes a) ++ "/" ++ orEmpty (trimSlashes b))).
Proof.
  intros Hs He.
  destruct (orEmpty_trimSlashes_trimmed a) as [Hsa Hea].
  destruct (orEmpty_trimSlashes_trimmed b) as [Hsb Heb].
  assert (H1 := child_directory_join self a Hs He).
  assert (Hj := joinDirectories_trimmed _ _ Hs He Hsa Hea).
  assert (H2 : directory (child (child self a) b)
               = Some (joinDirectories
                         (joinDirectories (orEmpty (directory self))
                                          (orEmpty (trimSlashes a)))
                         (orEmpty (trimSlashes b)))).
  { rewrite child_directory_join; rewrite H1; cbn [orEmpty]; [reflexivity | apply Hj ..]. }
  assert (H3 : directory (child self (Some (orEmpty (trimSlashes a) ++ "/"
                                            ++ orEmpty (trimSlashes b))))
               = Some (joinDirectories (orEmpty (directory self))
                         (joinDirectories (orEmpty (trimSlashes a))
                                          (orEmpty (trimSlashes b))))).
  { rewrite (child_directory_join _ _ Hs He).
    rewrite (trimSlashes_join _ _ Hsa Hea Hsb Heb). reflexivity. }
  rewrite joinDirectories_assoc in H2.
  destruct (child (child self a) b) as [n1 d1] eqn:E1.
  destruct (child self (Some _)) as [n2 d2] eqn:E2.
  cbn [directory] in H2, H3.
  assert (Hn1 : n1 = namespace self)
    by (change n1 with (namespace {| namespace := n1; directory := d1 |});
        rewrite <- E1; reflexivity).
  assert (Hn2 : n2 = namespace self)
    by (change n2 with (namespace {| namespace := n2; directory := d2 |});
        rewrite <- E2; reflexivity).
  congruence.
Qed.

(** X8: a child of a context without directory always has a directory: the
    trimmed child directory, or the empty string when there is none.  In
    the latter case every path resolved under the child starts with a
    slash, where the parent resolves the same name without one. *)
Theorem child_of_undefined_directory self childDirectory name :
  directory self = None ->
  directory (child self childDirectory) = Some (orEmpty (trimSlashes childDirectory))
  /\ (orEmpty (trimSlashes childDirectory) = EmptyString ->
      fullPath (getResourcePath name) <> [] ->
      resolvedPath (child self childDirectory) name
      = "/" ++ JS.join "/" (fullPath (getResourcePath name))
      /\ resolvedPath self name = JS.join "/" (fullPath (getResourcePath name))).
Proof.
  intros Hd.
  assert (H : directory (child self childDirectory)
              = Some (orEmpty (trimSlashes childDirectory))).
  { rewrite child_directory_joined.
    rewrite Hd. cbn [orEmpty append].
    assert (Ht : JS.startsWithSlash (orEmpty (trimSlashes childDirectory)) = false
                 /\ JS.endsWithSlash (orEmpty (trimSlashes childDirectory)) = false).
    { destruct (trimSlashes childDirectory) as [t|] eqn:E.
      - exact (trimSlashes_trimmed _ _ E).
      - split; reflexivity. }
    destruct Ht as [Hs He]. unfold trimSlashes at 1. cbn [option_map]. f_equal.
    change (JS.replaceLeadingSlashes (String "/" (orEmpty (trimSlashes childDirectory))))
      with (JS.replaceLeadingSlashes (orEmpty (trimSlashes childDirectory))).
    rewrite (replaceLeadingSlashes_id _ Hs). apply replaceTrailingSlashes_id. exact He. }
  split; [exact H|].
  intros Hempty Hfp. rewrite Hempty in H. split.
  - rewrite (resolvedPath_directory _ name _ H).
    destruct (fullPath (getResourcePath name)); [congruence | reflexivity].
  - apply resolvedPath_no_directory. exact Hd.
Qed.

(** What a returned identifier tells about the inputs. *)
Lemma getName_Normal_inv self name id :
  getName self name = Normal id ->
  isDefined (namespace self) && JS.includes name ":" = false
  /\ JS.matchesClassPlus JS.namespaceChar (resolvedNamespace self name) = true
  /\ JS.matchesClassPlus JS.pathChar (resolvedPath self name) = true
  /\ JS.includes (resolvedPath self name) ".." = false
  /\ (id = resolvedPath self name
      \/ id = resolvedNamespace self name ++ ":" ++ resolvedPath self name).
Proof.
  rewrite getName_unfold.
  destruct (isDefined (namespace self) && JS.includes name ":"); [discriminate|].
  destruct (JS.matchesClassPlus JS.namespaceChar _); [|discriminate].
  destruct (JS.isEmpty _); [discriminate|].
  destruct (JS.matchesClassPlus JS.pathChar _); [|discriminate].
  destruct (JS.includes (resolvedPath self name) ".."); [discriminate|].
  cbn [negb].
  destruct (isFalsy (namespace self) && negb (JS.includes name ":"));
    intros H; injection H as <-; repeat split; auto.
Qed.

(** X9: [getName] returns an identifier exactly when the name does not
    carry a namespace that the context already fixes, the namespace matches
    [^[0-9a-z_-]+$], the joined path matches [^[0-9a-z_\-/.]+$] and the path
    has no two consecutive dots; in every other case it throws. *)
Theorem getName_returns_iff self name :
  (exists id, getName self name = Normal id)
  <-> (isDefined (namespace self) && JS.includes name ":" = false
       /\ JS.matchesClassPlus JS.namespaceChar (resolvedNamespace self name) = true
       /\ JS.matchesClassPlus JS.pathChar (resolvedPath self name) = true
       /\ JS.includes (resolvedPath self name) ".." = false).
Proof.
  split.
  - intros [id H]. apply getName_Normal_inv in H. tauto.
  - intros [H1 [H2 [H3 H4]]]. rewrite getName_unfold, H1, H2, H3, H4.
    assert (He : JS.isEmpty (resolvedPath self name) = false).
    { unfold JS.matchesClassPlus in H3. apply andb_true_iff in H3.
      destruct H3 as [H3 _]. apply negb_true_iff in H3. exact H3. }
    rewrite He. cbn [negb].
    destruct (isFalsy (namespace self) && negb (JS.includes name ":"));
      eexists; reflexivity.
Qed.

Lemma namespaceChar_colon : JS.namespaceChar ":" = false.
Proof. reflexivity. Qed.

Lemma pathChar_colon : JS.pathChar ":" = false.
Proof. reflexivity. Qed.

Lemma matchesClassPlus_allChars cls s :
  JS.matchesClassPlus cls s = true -> JS.allChars cls s = true.
Proof. unfold JS.matchesClassPlus. intros H. apply andb_true_iff in H. apply H. Qed.

(** X10: a returned identifier has at most one colon and reads in one way
    only: either it has no colon and is the path, or it is the namespace, a
    colon and the path, neither of which has a colon, so that cutting it at
    its colon gives back exactly that namespace and that path. *)
Theorem getName_identifier_reads_uniquely self name id :
  getName self name = Normal id ->
  (id = resolvedPath self name /\ JS.includes id ":" = false)
  \/ (id = resolvedNamespace self name ++ ":" ++ resolvedPath self name
      /\ JS.includes (resolvedNamespace self name) ":" = false
      /\ JS.includes (resolvedPath self name) ":" = false
      /\ forall ns path,
           JS.includes ns ":" = false -> id = ns ++ ":" ++ path ->
           ns = resolvedNamespace self name /\ path = resolvedPath self name).
Proof.
  intros H. apply getName_Normal_inv in H.
  destruct H as [_ [Hns [Hpath [_ Hid]]]].
  assert (Cn : JS.includes (resolvedNamespace self name) ":" = false).
  { apply (includes_char_allChars JS.namespaceChar);
      [exact namespaceChar_colon | apply matchesClassPlus_allChars; exact Hns]. }
  assert (Cp : JS.includes (resolvedPath self name) ":" = false).
  { apply (includes_char_allChars JS.pathChar);
      [exact pathChar_colon | apply matchesClassPlus_allChars; exact Hpath]. }
  destruct Hid as [-> | ->].
  - left. split; [reflexivity | exact Cp].
  - right. split; [reflexivity|]. split; [exact Cn|]. split; [exact Cp|].
    intros ns path Hc E.
    destruct (colon_decomposition_unique _ _ _ _ Cn Hc E) as [-> ->].
    split; reflexivity.
Qed.

(** X11: a context whose namespace is the empty string resolves no name:
    a name with a colon is refused because the namespace is set, every
    other name because the empty namespace does not match the pattern. *)
Theorem getName_empty_namespace self name :
  namespace self = Some EmptyString ->
  getName self name
  = (if JS.includes name ":" then Throw NamespaceUnderBasePath
     else Throw (InvalidNamespace EmptyString))
  /\ forall id, getName self name <> Normal id.
Proof.
  intros Hns.
  assert (H : getName self name
              = if JS.includes name ":" then Throw NamespaceUnderBasePath
                else Throw (InvalidNamespace EmptyString)).
  { rewrite getName_unfold. unfold BasePath.resolvedNamespace. rewrite Hns.
    cbn [isDefined andb]. destruct (JS.includes name ":"); reflexivity. }
  split; [exact H|]. intros id. rewrite H.
  destruct (JS.includes name ":"); discriminate.
Qed.

(** X12: the namespace errors do not depend on the directory: a child
    context throws "Cannot define namespace under a base path" or the
    invalid-namespace error for a name exactly when its parent does. *)
Theorem child_namespace_errors self childDirectory name :
  (getName (child self childDirectory) name = Throw NamespaceUnderBasePath
   <-> getName self name = Throw NamespaceUnderBasePath)
  /\ (forall ns,
        getName (child self childDirectory) name = Throw (InvalidNamespace ns)
        <-> getName self name = Throw (InvalidNamespace ns)).
Proof.
  rewrite !getName_unfold.
  change (namespace (child self childDirectory)) with (namespace self).
  change (resolvedNamespace (child self childDirectory) name)
    with (resolvedNamespace self name).
  destruct (isDefined (namespace self) && JS.includes name ":").
  { split; [tauto | intros ns; tauto]. }
  destruct (JS.matchesClassPlus JS.namespaceChar (resolvedNamespace self name)); cbn [negb].
  2: { split; [tauto | intros ns; tauto]. }
  destruct (JS.isEmpty (resolvedPath (child self childDirectory) name));
  destruct (JS.matchesClassPlus JS.pathChar (resolvedPath (child self childDirectory) name));
  destruct (JS.includes (resolvedPath (child self childDirectory) name) "..");
  destruct (JS.isEmpty (resolvedPath self name));
  destruct (JS.matchesClassPlus JS.pathChar (resolvedPath self name));
  destruct (JS.includes (resolvedPath self name) "..");
  destruct (isFalsy (namespace self) && negb (JS.includes name ":"));
  cbn [negb]; (split; [split; discriminate | intros ns; split; discriminate]).
Qed.

(** X13: the directory is validated only when a name is resolved: under a
    context whose directory has a character outside [[0-9a-z_\-/.]], or two
    consecutive dots, [getName] returns for no name. *)
Theorem getName_invalid_directory self d name id :
  directory self = Some d ->
  JS.allChars JS.pathChar d = false \/ JS.includes d ".." = true ->
  getName self name <> Normal id.
Proof.
  intros Hd Hbad H. apply getName_Normal_inv in H.
  destruct H as [_ [_ [Hpath [Hdots _]]]].
  destruct (resolvedPath_extends self name d Hd) as [rest E].
  rewrite E in Hpath, Hdots.
  destruct Hbad as [Hc | Hi].
  - apply matchesClassPlus_allChars in Hpath.
    rewrite allChars_app, Hc in Hpath. discriminate.
  - rewrite (includes_app_l d rest ".." Hi) in Hdots. discriminate.
Qed.

End GetNameMore.

Lemma nested_children_path_witness :
  let self := new_BasePathClass {| opt_namespace := None; opt_directory := Some "dir" |} in
  directory self = Some "dir"
  /\ isClean "dir" = true /\ isClean "a" = true /\ isClean "b/c" = true
  /\ directory (child (child self (Some "a")) (Some "b/c")) = Some "dir/a/b/c"
  /\ resolvedPath (getResourcePath_spec "default")
       (child (child self (Some "a")) (Some "b/c")) "foo/bar" = "dir/a/b/c/foo/bar".
Proof.
  intros self.
  split; [reflexivity|]. split; [reflexivity|]. split; [reflexivity|].
  split; [reflexivity|].
  apply (nested_children_path (getResourcePath_spec "default") self "dir" "a" "b/c" "foo/bar");
    try reflexivity.
  discriminate.
Defined.

Lemma child_directory_cases_witness :
  let self := new_BasePathClass {| opt_namespace := None; opt_directory := Some "/a/b/" |} in
  let root := new_BasePathClass {| opt_namespace := None; opt_directory := None |} in
  directory self = Some "a/b"
  /\ directory (child self (Some "//")) = Some "a/b"
  /\ directory (child root (Some "/c/")) = Some "c"
  /\ directory (child self (Some "/c/")) = Some "a/b/c".
Proof.
  intros self root. split; [reflexivity|]. split; [|split].
  - apply (child_directory_cases self (Some "//")); reflexivity.
  - apply (child_directory_cases root (Some "/c/")); reflexivity.
  - apply (child_directory_cases self (Some "/c/")); try reflexivity; discriminate.
Defined.

Lemma child_of_child_witness :
  let self := new_BasePathClass {| opt_namespace := Some "x"; opt_directory := Some "a" |} in
  JS.startsWithSlash (orEmpty (directory self)) = false
  /\ JS.endsWithSlash (orEmpty (directory self)) = false
  /\ child (child self (Some "/b/")) (Some "c//d") = child self (Some "b/c//d")
  /\ directory (child self (Some "b/c//d")) = Some "a/b/c//d".
Proof.
  intros self. split; [reflexivity|]. split; [reflexivity|]. split; [|reflexivity].
  apply (child_of_child self (Some "/b/") (Some "c//d")); reflexivity.
Defined.

Lemma child_of_undefined_directory_witness :
  let self := new_BasePathClass {| opt_namespace := None; opt_directory := None |} in
  directory self = None
  /\ directory (child self None) = Some EmptyString
  /\ resolvedPath (getResourcePath_spec "default") (child self None) "foo" = "/foo"
  /\ resolvedPath (getResourcePath_spec "default") self "foo" = "foo".
Proof.
  intros self. split; [reflexivity|].
  destruct (child_of_undefined_directory (getResourcePath_spec "default") self None "foo"
              eq_refl) as [Hdir Hpath].
  split; [exact Hdir|].
  apply Hpath; [reflexivity | discriminate].
Defined.

Lemma getName_identifier_reads_uniquely_witness :
  getName (getResourcePath_spec "default") plainDirectory "ns:foo" = Normal "ns:dir/foo"
  /\ (forall ns path,
        JS.includes ns ":" = false -> "ns:dir/foo" = ns ++ ":" ++ path ->
        ns = "ns" /\ path = "dir/foo").
Proof.
  split; [reflexivity|].
  destruct (getName_identifier_reads_uniquely (getResourcePath_spec "default")
              plainDirectory "ns:foo" "ns:dir/foo" eq_refl) as [[_ H] | [_ [_ [_ H]]]].
  - discriminate H.
  - exact H.
Defined.

Lemma getName_empty_namespace_witness :
  let self := new_BasePathClass {| opt_namespace := Some EmptyString;
                                   opt_directory := None |} in
  namespace self = Some EmptyString
  /\ getName (getResourcePath_spec "default") self "foo" = Throw (InvalidNamespace EmptyString)
  /\ getName (getResourcePath_spec "default") self "a:b" = Throw NamespaceUnderBasePath.
Proof.
  intros self. split; [reflexivity|]. split.
  - apply (getName_empty_namespace (getResourcePath_spec "default") self "foo" eq_refl).
  - apply (getName_empty_namespace (getResourcePath_spec "default") self "a:b" eq_refl).
Defined.

Lemma getName_invalid_directory_witness :
  let self := new_BasePathClass {| opt_namespace := None; opt_directory := Some "My Dir" |} in
  directory self = Some "My Dir"
  /\ JS.allChars JS.pathChar "My Dir" = false
  /\ getName (getResourcePath_spec "default") self "foo" <> Normal "My Dir/foo".
Proof.
  intros self. split; [reflexivity|]. split; [reflexivity|].
  apply (getName_invalid_directory (getResourcePath_spec "default") self "My Dir" "foo");
    [reflexivity | left; reflexivity].
Defined.

End BasePathMore.

(** * The segments of a stored directory *)

Module BasePathSegments.
Import BasePath BasePathFacts BasePathMore.

Lemma prefix_cons a s1 b s2 :
  String.prefix (String a s1) (String b s2)
  = if ascii_dec a b then String.prefix s1 s2 else false.
Proof. reflexivity. Qed.

Lemma prefix_slash s : String.prefix "/" s = JS.startsWithSlash s.
Proof.
  destruct s as [|c s]; [reflexivity|]. rewrite prefix_cons.
  cbn [JS.startsWithSlash].
  destruct (ascii_dec "/" c) as [<-|Hne].
  - rewrite prefix_empty. reflexivity.
  - symmetry. apply Ascii.eqb_neq. intros ->. apply Hne. reflexivity.
Qed.

Lemma includes_double_nil : JS.includes EmptyString "//" = false.
Proof. reflexivity. Qed.

Lemma includes_double_cons c s :
  JS.includes (String c s) "//"
  = (Ascii.eqb c JS.slash && JS.startsWithSlash s) || JS.includes s "//".
Proof.
  rewrite includes_cons. f_equal. rewrite prefix_cons.
  destruct (ascii_dec "/" c) as [<-|Hne].
  - rewrite prefix_slash. reflexivity.
  - assert (E : Ascii.eqb c JS.slash = false)
      by (apply Ascii.eqb_neq; intros ->; apply Hne; reflexivity).
    rewrite E. reflexivity.
Qed.

Lemma endsWithSlash_cons c s :
  JS.endsWithSlash (String c s)
  = match s with EmptyString => Ascii.eqb c JS.slash | _ => JS.endsWithSlash s end.
Proof. reflexivity. Qed.

(** The first segment is empty exactly for the empty string and for a
    string that starts with a slash. *)
Lemma split_head_empty s :
  hd EmptyString (JS.split JS.slash s) = EmptyString
  <-> s = EmptyString \/ JS.startsWithSlash s = true.
Proof.
  destruct s as [|c s]; [cbn; tauto|].
  rewrite split_cons. cbn [JS.startsWithSlash].
  destruct (Ascii.eqb c JS.slash).
  - cbn. tauto.
  - destruct (JS.split JS.slash s); cbn;
      (split; [discriminate | intros [H|H]; discriminate]).
Qed.

(** A later segment is empty exactly when the string ends with a slash or
    has two slashes in a row. *)
Lemma split_tail_empty s :
  In EmptyString (tl (JS.split JS.slash s))
  <-> JS.endsWithSlash s = true \/ JS.includes s "//" = true.
Proof.
  induction s as [|c s IH].
  - cbn. split; [intros [] | intros [H|H]; discriminate].
  - rewrite split_cons, endsWithSlash_cons, includes_double_cons.
    destruct (Ascii.eqb c JS.slash) eqn:E; cbn [andb tl].
    + destruct s as [|c' s'].
      * cbn. tauto.
      * assert (Hhd := split_head_empty (String c' s')).
        destruct (JS.split JS.slash (String c' s')) as [|p ps] eqn:S;
          [exfalso; eapply split_nonempty; exact S|].
        cbn [hd tl In] in *. rewrite orb_true_iff.
        split.
        -- intros [Hp | Hin].
           ++ apply Hhd in Hp. destruct Hp as [Hp|Hp]; [discriminate|].
              right. left. exact Hp.
           ++ apply IH in Hin. tauto.
        -- intros [He | [Hs | Hi]].
           ++ right. apply IH. left. exact He.
           ++ left. apply Hhd. right. exact Hs.
           ++ right. apply IH. right. exact Hi.
    + cbn [orb].
      destruct (JS.split JS.slash s) as [|p ps] eqn:S;
        [exfalso; eapply split_nonempty; exact S|].
      cbn [tl] in *. rewrite IH.
      destruct s as [|c' s']; [|tauto].
      cbn. split; intros [H|H]; discriminate.
Qed.

(** A non-empty string without a slash at either end has an empty segment
    exactly when it has two slashes in a row. *)
Lemma split_empty_segment d :
  d <> EmptyString ->
  JS.startsWithSlash d = false -> JS.endsWithSlash d = false ->
  (In EmptyString (JS.split JS.slash d) <-> JS.includes d "//" = true).
Proof.
  intros Hne Hs He.
  assert (Hhd := split_head_empty d). assert (Htl := split_tail_empty d).
  destruct (JS.split JS.slash d) as [|p ps] eqn:S;
    [exfalso; eapply split_nonempty; exact S|].
  cbn [hd tl In] in *. split.
  - intros [Hp | Hin].
    + apply Hhd in Hp. destruct Hp as [Hp|Hp]; congruence.
    + apply Htl in Hin. destruct Hin as [Hin|Hin]; congruence.
  - intros Hi. right. apply Htl. right. exact Hi.
Qed.

(** Joining with one slash brings no doubled slash of its own. *)
Lemma includes_double_join x : forall y,
  JS.endsWithSlash x = false -> JS.startsWithSlash y = false ->
  JS.includes (x ++ String "/" y) "//" = JS.includes x "//" || JS.includes y "//".
Proof.
  induction x as [|c x IH]; intros y He Hs.
  - cbn [append]. rewrite includes_double_cons, Hs. reflexivity.
  - change (String c x ++ String "/" y) with (String c (x ++ String "/" y)).
    rewrite !includes_double_cons.
    rewrite endsWithSlash_cons in He.
    destruct x as [|c' x'].
    + cbn [append JS.startsWithSlash]. rewrite He. cbn [andb orb].
      rewrite includes_double_cons, Hs. reflexivity.
    + rewrite (IH y He Hs). cbn [append JS.startsWithSlash].
      rewrite orb_assoc. reflexivity.
Qed.

Lemma includes_double_joinDirectories x y :
  JS.endsWithSlash x = false -> JS.startsWithSlash y = false ->
  JS.includes (joinDirectories x y) "//" = JS.includes x "//" || JS.includes y "//".
Proof.
  intros He Hs. unfold joinDirectories.
  destruct x as [|c x]; [reflexivity|].
  destruct y as [|c' y].
  - cbn [JS.isEmpty String.length Nat.eqb]. rewrite includes_double_nil, orb_false_r.
    reflexivity.
  - cbn [JS.isEmpty String.length Nat.eqb].
    exact (includes_double_join (String c x) (String c' y) He Hs).
Qed.

Lemma includes_app_r a b needle :
  JS.includes b needle = true -> JS.includes (a ++ b) needle = true.
Proof.
  intros H. induction a as [|c a IH]; [exact H|].
  change (String c a ++ b) with (String c (a ++ b)).
  rewrite includes_cons, IH. apply orb_true_r.
Qed.

(** A doubled separator that survives the trimming was in the given
    string. *)
Lemma hasInnerDouble_given s :
  hasInnerDouble (Some s) = true -> JS.includes s "//" = true.
Proof.
  unfold hasInnerDouble. cbn [trimSlashes option_map orEmpty]. intros H.
  destruct (replaceLeadingSlashes_decompose s) as [a [Ha _]].
  destruct (replaceTrailingSlashes_decompose (JS.replaceLeadingSlashes s)) as [b [Hb _]].
  rewrite Ha, Hb. apply includes_app_r. apply includes_app_l. exact H.
Qed.

(** What the constructor and [child] keep of the directories they are given. *)
Lemma Built_directory given ctx :
  Built given ctx ->
  JS.startsWithSlash (orEmpty (directory ctx)) = false
  /\ JS.endsWithSlash (orEmpty (directory ctx)) = false
  /\ (JS.includes (orEmpty (directory ctx)) "//" = true
      <-> exists g, In g given /\ hasInnerDouble g = true).
Proof.
  induction 1 as [basePath | given parent childDirectory Hb [Hs [He Hi]]].
  - cbn [directory new_BasePathClass].
    destruct (orEmpty_trimSlashes_trimmed (opt_directory basePath)) as [Hs He].
    split; [exact Hs|]. split; [exact He|].
    fold (hasInnerDouble (opt_directory basePath)). split.
    + intros H. exists (opt_directory basePath). split; [left; reflexivity | exact H].
    + intros [g [[<-|[]] H]]. exact H.
  - destruct (orEmpty_trimSlashes_trimmed childDirectory) as [Hs' He'].
    rewrite (child_directory_join parent childDirectory Hs He). cbn [orEmpty].
    destruct (joinDirectories_trimmed _ _ Hs He Hs' He') as [Hsj Hej].
    split; [exact Hsj|]. split; [exact Hej|].
    rewrite (includes_double_joinDirectories _ _ He Hs'), orb_true_iff, Hi.
    fold (hasInnerDouble childDirectory). split.
    + intros [[g [Hin Hg]] | Hc].
      * exists g. split; [apply in_or_app; left; exact Hin | exact Hg].
      * exists childDirectory. split; [apply in_or_app; right; left; reflexivity | exact Hc].
    + intros [g [Hin Hg]]. apply in_app_or in Hin. destruct Hin as [Hin | [<-|[]]].
      * left. exists g. split; assumption.
      * right. exact Hg.
Qed.

(** C4 (amended): for a context built by the constructor or by [child], the
    leading and trailing separators of every given directory are stripped
    and directories are joined with one separator: the stored directory
    neither starts nor ends with [/], and, unless it is the empty string,
    it has an empty segment exactly when one of the directories given on
    the way still has a doubled separator once its own leading and trailing
    separators are stripped.  So, when no given directory contains [//], no
    segment of a non-empty stored directory is empty. *)
Theorem directory_segments_at_construction given ctx d :
  Built given ctx ->
  directory ctx = Some d ->
  JS.startsWithSlash d = false /\ JS.endsWithSlash d = false
  /\ (d <> EmptyString ->
      (In EmptyString (pathToArray (Some d))
       <-> exists g, In g given /\ hasInnerDouble g = true)
      /\ ((forall s, In (Some s) given -> JS.includes s "//" = false) ->
          ~ In EmptyString (pathToArray (Some d)))).
Proof.
  intros Hb Hd. destruct (Built_directory given ctx Hb) as [Hs [He Hi]].
  rewrite Hd in Hs, He, Hi. cbn [orEmpty] in Hs, He, Hi.
  split; [exact Hs|]. split; [exact He|]. intros Hne.
  assert (Hseg : In EmptyString (pathToArray (Some d))
                 <-> exists g, In g given /\ hasInnerDouble g = true).
  { unfold pathToArray. rewrite (split_empty_segment d Hne Hs He). exact Hi. }
  split; [exact Hseg|].
  intros Hgiven Hin. apply Hseg in Hin. destruct Hin as [g [Hg Hdouble]].
  destruct g as [s|].
  - apply hasInnerDouble_given in Hdouble. rewrite (Hgiven s Hg) in Hdouble. discriminate.
  - discriminate Hdouble.
Qed.

Lemma directory_segments_at_construction_witness :
  let root := new_BasePathClass {| opt_namespace := None; opt_directory := Some "/a/b/" |} in
  let ctx := child (child root (Some "/c/")) None in
  Built [Some "/a/b/"; Some "/c/"; None] ctx
  /\ directory ctx = Some "a/b/c"
  /\ pathToArray (directory ctx) = ["a"; "b"; "c"]
  /\ ~ In EmptyString (pathToArray (Some "a/b/c"))
  /\ (In EmptyString (pathToArray (Some "a/b/c"))
      <-> exists g, In g [Some "/a/b/"; Some "/c/"; None] /\ hasInnerDouble g = true).
Proof.
  intros root ctx.
  assert (Hb : Built [Some "/a/b/"; Some "/c/"; None] ctx).
  { apply (Built_child [Some "/a/b/"; Some "/c/"] (child root (Some "/c/")) None).
    apply (Built_child [Some "/a/b/"] root (Some "/c/")).
    apply (Built_root {| opt_namespace := None; opt_directory := Some "/a/b/" |}). }
  assert (Hd : directory ctx = Some "a/b/c") by reflexivity.
  split; [exact Hb|]. split; [exact Hd|]. split; [reflexivity|].
  destruct (directory_segments_at_construction _ ctx "a/b/c" Hb Hd) as [_ [_ Hseg]].
  destruct (Hseg ltac:(discriminate)) as [Hiff Hnone].
  split; [|exact Hiff].
  apply Hnone. intros s [H|[H|[H|[]]]]; try discriminate H; injection H as <-; reflexivity.
Defined.

End BasePathSegments.

(** * Further properties of [toString] and [Selector] *)

Module SelectorMore.
Import Selector SelectorFacts.

(** ** The two loops in closed form *)

Lemma pushedBy_delete name entry obj :
  name <> fst entry -> pushedBy entry (delete name obj) = pushedBy entry obj.
Proof.
  intros Hne. unfold pushedBy. rewrite get_delete_other by exact Hne. reflexivity.
Qed.

Lemma specialPairs_delete name entries obj :
  ~ In name (map fst entries) ->
  specialPairs entries (delete name obj) = specialPairs entries obj.
Proof.
  induction entries as [|entry rest IH]; intros Hnot; [reflexivity|].
  cbn [specialPairs]. rewrite pushedBy_delete.
  - rewrite IH; [reflexivity|]. intros Hin. apply Hnot. right. exact Hin.
  - intros Heq. apply Hnot. left. symmetry. exact Heq.
Qed.

Lemma applyModifiers_closed entries : forall f,
  NoDup (map fst entries) ->
  applyModifiers entries f
  = option_map (fun special => {| this := this f;
                                  args := finalArgs entries (args f);
                                  result := result f ++ special |})
               (specialPairs entries (args f)).
Proof.
  induction entries as [|entry rest IH]; intros f Hnd.
  - destruct f. cbn. rewrite app_nil_r. reflexivity.
  - cbn [map] in Hnd. inversion Hnd as [|? ? Hnot Hnd']; subst.
    cbn [applyModifiers specialPairs]. unfold applyModifier, pushedBy, finalArgs.
    cbn [fold_left]. unfold deleteDefined at 2.
    destruct (get (fst entry) (args f)) as [value|].
    + destruct (snd entry value) as [pushed|]; [|reflexivity].
      rewrite (IH _ Hnd'). cbn [this args result].
      rewrite (specialPairs_delete _ _ _ Hnot).
      destruct (specialPairs rest (args f)) as [special|]; [|reflexivity].
      cbn [option_map]. rewrite app_assoc. reflexivity.
    + rewrite (IH _ Hnd').
      destruct (specialPairs rest (args f)) as [special|]; reflexivity.
Qed.

Lemma pushGeneric_closed entries : forall f,
  fold_left pushGeneric entries f
  = {| this := this f; args := args f; result := result f ++ genericPairs entries |}.
Proof.
  induction entries as [|entry rest IH]; intros f.
  - destruct f. cbn. rewrite app_nil_r. reflexivity.
  - cbn [fold_left]. rewrite IH. unfold pushGeneric, genericPairs.
    cbn [flat_map]. unfold genericPair at 2.
    destruct (snd entry) as [value|]; [|reflexivity].
    cbn [this args result]. rewrite <- app_assoc. reflexivity.
Qed.

(** ** What is left in the working copy *)

Lemma isSpecial_In key : isSpecial key = true <-> In key (map fst modifiers).
Proof.
  unfold isSpecial. rewrite existsb_exists. split.
  - intros [x [Hin Heq]]. apply String.eqb_eq in Heq. subst x. exact Hin.
  - intros Hin. exists key. split; [exact Hin | apply String.eqb_refl].
Qed.

Lemma filter_weaker {A : Type} (P Q : A -> bool) (l : list A) :
  (forall x, P x = true -> Q x = true) -> filter P (filter Q l) = filter P l.
Proof.
  intros H. induction l as [|x l IH]; [reflexivity|].
  cbn [filter]. destruct (Q x) eqn:Eq.
  - cbn [filter]. rewrite IH. reflexivity.
  - destruct (P x) eqn:Ep; [rewrite (H x Ep) in Eq; discriminate | exact IH].
Qed.

Lemma remaining_deleteDefined name obj :
  isSpecial name = true -> remaining (deleteDefined name obj) = remaining obj.
Proof.
  intros Hs. unfold deleteDefined. destruct (get name obj); [|reflexivity].
  unfold remaining, delete. apply filter_weaker.
  intros [key value] H. cbn [fst] in *.
  destruct (String.eqb key name) eqn:E; [|reflexivity].
  apply String.eqb_eq in E. subst key. rewrite Hs in H. discriminate.
Qed.

Lemma remaining_finalArgs entries : forall obj,
  (forall entry, In entry entries -> isSpecial (fst entry) = true) ->
  remaining (finalArgs entries obj) = remaining obj.
Proof.
  induction entries as [|entry rest IH]; intros obj H; [reflexivity|].
  unfold finalArgs. cbn [fold_left]. fold (finalArgs rest (deleteDefined (fst entry) obj)).
  rewrite IH by (intros e He; apply H; right; exact He).
  apply remaining_deleteDefined. apply H. left. reflexivity.
Qed.

Lemma NoDup_delete name obj :
  NoDup (map fst obj) -> NoDup (map fst (delete name obj)).
Proof.
  induction obj as [|[key value] rest IH]; intros Hnd; [constructor|].
  cbn [map fst] in Hnd. inversion Hnd as [|? ? Hnot Hnd']; subst.
  unfold delete. cbn [filter fst]. destruct (negb (String.eqb key name)).
  - cbn [map fst]. constructor; [|apply IH; exact Hnd'].
    intros Hin. apply Hnot. apply in_map_iff in Hin.
    destruct Hin as [e [He Hin]]. apply filter_In in Hin.
    apply in_map_iff. exists e. tauto.
  - apply IH. exact Hnd'.
Qed.

Lemma NoDup_deleteDefined name obj :
  NoDup (map fst obj) -> NoDup (map fst (deleteDefined name obj)).
Proof.
  intros H. unfold deleteDefined. destruct (get name obj); [|exact H].
  apply NoDup_delete. exact H.
Qed.

Lemma undefinedAt_deleteDefined name k obj :
  undefinedAt k obj -> undefinedAt k (deleteDefined name obj).
Proof.
  intros H. unfold deleteDefined. destruct (get name obj); [|exact H].
  apply undefinedAt_delete. exact H.
Qed.

Lemma undefinedAt_deleteDefined_same k obj :
  NoDup (map fst obj) -> undefinedAt k (deleteDefined k obj).
Proof.
  intros Hnd. unfold deleteDefined. destruct (get k obj) eqn:G.
  - apply undefinedAt_delete_same.
  - apply get_undefinedAt; assumption.
Qed.

Lemma undefinedAt_finalArgs entries : forall obj k,
  undefinedAt k obj -> undefinedAt k (finalArgs entries obj).
Proof.
  induction entries as [|entry rest IH]; intros obj k H; [exact H|].
  unfold finalArgs. cbn [fold_left]. fold (finalArgs rest (deleteDefined (fst entry) obj)).
  apply IH. apply undefinedAt_deleteDefined. exact H.
Qed.

Lemma finalArgs_undefinedAt entries : forall obj k,
  NoDup (map fst obj) -> In k (map fst entries) ->
  undefinedAt k (finalArgs entries obj).
Proof.
  induction entries as [|entry rest IH]; intros obj k Hnd Hin; [contradiction|].
  unfold finalArgs. cbn [fold_left]. fold (finalArgs rest (deleteDefined (fst entry) obj)).
  cbn [map] in Hin. destruct Hin as [<- | Hin].
  - apply undefinedAt_finalArgs. apply undefinedAt_deleteDefined_same. exact Hnd.
  - apply IH; [apply NoDup_deleteDefined; exact Hnd | exact Hin].
Qed.

Lemma genericPairs_remaining obj :
  (forall k, isSpecial k = true -> undefinedAt k obj) ->
  genericPairs obj = genericPairs (remaining obj).
Proof.
  induction obj as [|[key value] rest IH]; intros H; [reflexivity|].
  assert (Hrest : forall k, isSpecial k = true -> undefinedAt k rest).
  { intros k Hk v Hin. apply (H k Hk). right. exact Hin. }
  unfold genericPairs, remaining in *. cbn [flat_map filter fst].
  destruct (isSpecial key) eqn:E; cbn [negb].
  - rewrite (H key E value (or_introl eq_refl)). cbn. apply IH. exact Hrest.
  - cbn [flat_map]. f_equal. apply IH. exact Hrest.
Qed.

Lemma modifiers_NoDup : NoDup (map fst modifiers).
Proof. cbn. repeat constructor; cbn; intuition discriminate. Qed.

(** The array [result] when [toString] reaches its [return]. *)
Lemma toString_frame_result self :
  NoDup (map fst (arguments self)) ->
  option_map result (toString_frame self)
  = option_map (fun special => (special ++ genericPairs (remaining (arguments self)))%list)
               (specialPairs modifiers (arguments self)).
Proof.
  intros Hnd. unfold toString_frame.
  rewrite (applyModifiers_closed modifiers _ modifiers_NoDup). cbn [this args result].
  destruct (specialPairs modifiers (arguments self)) as [special|]; [|reflexivity].
  cbn [option_map]. rewrite pushGeneric_closed. cbn [result args]. do 2 f_equal.
  rewrite (genericPairs_remaining (finalArgs modifiers (arguments self))).
  - rewrite remaining_finalArgs; [reflexivity|].
    intros entry Hin. apply isSpecial_In. apply in_map. exact Hin.
  - intros k Hk. apply finalArgs_undefinedAt; [exact Hnd|].
    apply isSpecial_In. exact Hk.
Qed.

Lemma toString_of_frame self :
  arguments self <> [] ->
  toString self = option_map (fun pairs => render (target self) pairs)
                             (option_map result (toString_frame self)).
Proof.
  intros Hne. unfold toString, toString_run.
  destruct (arguments self) as [|entry rest] eqn:Ea; [contradiction|].
  cbn [List.length Nat.eqb].
  destruct (toString_frame self) as [frame|] eqn:E; [|reflexivity].
  cbn [option_map fst]. rewrite (toString_frame_this _ _ E). reflexivity.
Qed.

(** X14: for an arguments object with at least one key, [toString] is the
    target followed, between brackets, by the pairs of the special-cased
    keys in the fixed order score, advancements, tag, predicate, team, and
    then the pairs of the defined properties of the other keys, in the
    order the object lists them. *)
Theorem toString_normal_form self :
  NoDup (map fst (arguments self)) ->
  arguments self <> [] ->
  toString self
  = option_map
      (fun special =>
         render (target self)
                (special ++ genericPairs (remaining (arguments self)))%list)
      (specialPairs modifiers (arguments self)).
Proof.
  intros Hnd Hne.
  rewrite (toString_of_frame self Hne), (toString_frame_result self Hnd).
  destruct (specialPairs modifiers (arguments self)); reflexivity.
Qed.

Lemma toString_normal_form_witness :
  let self := {| target := "@e";
                 arguments := [("limit", Some (VNumber 1));
                               ("team", Some (VBoolean true));
                               ("sort", None);
                               ("tag", Some (VStrings ["a"; "b"]));
                               ("score", Some (VScore [("kills", RBounds (Some 3%Z) None)]))] |} in
  NoDup (map fst (arguments self))
  /\ arguments self <> []
  /\ toString self = Some "@e[score={kills=3..}, tag=a, tag=b, team=!, limit=1]".
Proof.
  intros self.
  assert (Hnd : NoDup (map fst (arguments self))).
  { cbn. repeat constructor; cbn; intuition discriminate. }
  assert (Hne : arguments self <> []) by discriminate.
  split; [exact Hnd|]. split; [exact Hne|].
  rewrite (toString_normal_form self Hnd Hne). reflexivity.
Defined.

(** ** The position of the special-cased keys *)

Lemma specialPairs_ext entries obj1 obj2 :
  (forall entry, In entry entries -> get (fst entry) obj1 = get (fst entry) obj2) ->
  specialPairs entries obj1 = specialPairs entries obj2.
Proof.
  induction entries as [|entry rest IH]; intros H; [reflexivity|].
  cbn [specialPairs]. unfold pushedBy.
  rewrite (H entry (or_introl eq_refl)).
  rewrite IH by (intros e He; apply H; right; exact He). reflexivity.
Qed.

(** X15: the string does not depend on where the special-cased keys stand
    in the arguments object: two non-empty objects that hold the same
    values under score, advancements, tag, predicate and team, and give the
    same generic pairs in the same order, are rendered alike. *)
Theorem toString_special_keys_position target args1 args2 :
  NoDup (map fst args1) -> NoDup (map fst args2) ->
  args1 <> [] -> args2 <> [] ->
  (forall key, isSpecial key = true -> get key args1 = get key args2) ->
  genericPairs (remaining args1) = genericPairs (remaining args2) ->
  toString {| target := target; arguments := args1 |}
  = toString {| target := target; arguments := args2 |}.
Proof.
  intros Hnd1 Hnd2 Hne1 Hne2 Hget Hgen.
  rewrite (toString_of_frame {| target := target; arguments := args1 |} Hne1).
  rewrite (toString_of_frame {| target := target; arguments := args2 |} Hne2).
  rewrite (toString_frame_result {| target := target; arguments := args1 |} Hnd1).
  rewrite (toString_frame_result {| target := target; arguments := args2 |} Hnd2).
  cbn [arguments Selector.target]. rewrite Hgen.
  rewrite (specialPairs_ext modifiers args1 args2); [reflexivity|].
  intros entry Hin. apply Hget. apply isSpecial_In. apply in_map. exact Hin.
Qed.

Lemma toString_special_keys_position_witness :
  let args1 := [("tag", Some (VString "a")); ("limit", Some (VNumber 1));
                ("team", Some (VBoolean false))] in
  let args2 := [("team", Some (VBoolean false)); ("limit", Some (VNumber 1));
                ("tag", Some (VString "a"))] in
  toString {| target := "@a"; arguments := args1 |}
  = toString {| target := "@a"; arguments := args2 |}
  /\ toString {| target := "@a"; arguments := args2 |} = Some "@a[tag=a, team=, limit=1]".
Proof.
  intros args1 args2. split; [|reflexivity].
  apply (toString_special_keys_position "@a" args1 args2).
  - cbn. repeat constructor; cbn; intuition discriminate.
  - cbn. repeat constructor; cbn; intuition discriminate.
  - discriminate.
  - discriminate.
  - intros key Hk. apply isSpecial_In in Hk. cbn in Hk.
    destruct Hk as [<-|[<-|[<-|[<-|[<-|[]]]]]]; reflexivity.
  - reflexivity.
Defined.

(** ** The pairs of one key *)

Lemma keyed_tag : keyed "tag" modifier_tag.
Proof.
  intros value pushed pair H Hin. destruct value; try discriminate; injection H as <-.
  - destruct Hin as [<-|[]]. reflexivity.
  - apply in_map_iff in Hin. destruct Hin as [x [<- _]]. reflexivity.
Qed.

Lemma modifiers_keyed :
  Forall (fun entry : string * Modifier => keyed (fst entry) (snd entry)) modifiers.
Proof.
  repeat constructor; cbn [fst snd].
  - exact keyed_score.
  - exact keyed_advancements.
  - exact keyed_tag.
  - exact keyed_predicate.
  - exact keyed_team.
Qed.

Lemma filter_isKey_same k pairs :
  (forall pair, In pair pairs -> fst pair = k) -> filter (isKey k) pairs = pairs.
Proof.
  induction pairs as [|pair rest IH]; intros H; [reflexivity|].
  cbn [filter]. unfold isKey at 1.
  rewrite (H pair (or_introl eq_refl)), String.eqb_refl.
  f_equal. apply IH. intros q Hq. apply H. right. exact Hq.
Qed.

Lemma filter_isKey_none k pairs :
  (forall pair, In pair pairs -> fst pair <> k) -> filter (isKey k) pairs = [].
Proof.
  induction pairs as [|pair rest IH]; intros H; [reflexivity|].
  cbn [filter]. unfold isKey at 1.
  destruct (String.eqb (fst pair) k) eqn:E.
  - apply String.eqb_eq in E. exfalso. exact (H pair (or_introl eq_refl) E).
  - apply IH. intros q Hq. apply H. right. exact Hq.
Qed.

Lemma pushedBy_keyed entry obj pushed :
  keyed (fst entry) (snd entry) -> pushedBy entry obj = Some pushed ->
  forall pair, In pair pushed -> fst pair = fst entry.
Proof.
  intros Hk. unfold pushedBy. destruct (get (fst entry) obj) as [value|].
  - intros H pair Hin. exact (Hk value pushed pair H Hin).
  - intros H. injection H as <-. intros pair [].
Qed.

Lemma specialPairs_cons entry rest obj special :
  specialPairs (entry :: rest) obj = Some special ->
  exists pushed special',
    pushedBy entry obj = Some pushed /\ specialPairs rest obj = Some special'
    /\ special = (pushed ++ special')%list.
Proof.
  cbn [specialPairs]. destruct (pushedBy entry obj) as [pushed|]; [|discriminate].
  destruct (specialPairs rest obj) as [special'|]; [|discriminate].
  cbn [option_map]. intros H. injection H as <-. eauto.
Qed.

Lemma specialPairs_filter_other k entries : forall obj special,
  Forall (fun entry : string * Modifier => keyed (fst entry) (snd entry)) entries ->
  ~ In k (map fst entries) ->
  specialPairs entries obj = Some special ->
  filter (isKey k) special = [].
Proof.
  induction entries as [|entry rest IH]; intros obj special Hk Hnot H.
  - injection H as <-. reflexivity.
  - apply specialPairs_cons in H. destruct H as [pushed [special' [Hp [Hs ->]]]].
    inversion Hk as [|? ? Hke Hkr]; subst.
    rewrite filter_app, (IH obj special' Hkr) by
      (try exact Hs; intros Hin; apply Hnot; right; exact Hin).
    rewrite app_nil_r. apply filter_isKey_none.
    intros pair Hin Heq. apply Hnot. left.
    rewrite <- (pushedBy_keyed entry obj pushed Hke Hp pair Hin). exact Heq.
Qed.

Lemma specialPairs_filter_entry entries : forall obj special entry pushed,
  Forall (fun e : string * Modifier => keyed (fst e) (snd e)) entries ->
  NoDup (map fst entries) ->
  In entry entries ->
  specialPairs entries obj = Some special ->
  pushedBy entry obj = Some pushed ->
  filter (isKey (fst entry)) special = pushed.
Proof.
  induction entries as [|e rest IH]; intros obj special entry pushed Hk Hnd Hin H Hp;
    [contradiction|].
  apply specialPairs_cons in H. destruct H as [p0 [special' [Hp0 [Hs ->]]]].
  inversion Hk as [|? ? Hke Hkr]; subst.
  cbn [map] in Hnd. inversion Hnd as [|? ? Hnot Hnd']; subst.
  rewrite filter_app. destruct Hin as [-> | Hin].
  - rewrite Hp in Hp0. injection Hp0 as <-.
    rewrite (specialPairs_filter_other (fst entry) rest obj special' Hkr Hnot Hs).
    rewrite app_nil_r. apply filter_isKey_same.
    exact (pushedBy_keyed entry obj pushed Hke Hp).
  - rewrite (IH obj special' entry pushed Hkr Hnd' Hin Hs Hp).
    rewrite filter_isKey_none; [reflexivity|].
    intros pair Hpair Heq. apply Hnot.
    rewrite <- (pushedBy_keyed e obj p0 Hke Hp0 pair Hpair), Heq.
    apply in_map. exact Hin.
Qed.

Lemma genericPairs_keys obj pair :
  In pair (genericPairs (remaining obj)) ->
  In (fst pair) (map fst obj) /\ isSpecial (fst pair) = false.
Proof.
  unfold genericPairs. intros H. apply in_flat_map in H.
  destruct H as [[key value] [Hin Hp]].
  unfold remaining in Hin. apply filter_In in Hin. destruct Hin as [Hin Hs].
  unfold genericPair in Hp. cbn [fst snd] in *.
  destruct value as [v|]; [|contradiction].
  destruct Hp as [<-|[]]. cbn [fst]. split.
  - apply (in_map fst) in Hin. exact Hin.
  - apply negb_true_iff. exact Hs.
Qed.

Lemma genericPairs_filter_key k obj :
  NoDup (map fst obj) -> isSpecial k = false ->
  filter (isKey k) (genericPairs (remaining obj)) = genericPair (k, get k obj).
Proof.
  intros Hnd Hk. induction obj as [|[key value] rest IH]; [reflexivity|].
  cbn [map fst] in Hnd. inversion Hnd as [|? ? Hnot Hnd']; subst.
  cbn [get]. unfold remaining. cbn [filter fst]. fold (remaining rest).
  destruct (String.eqb key k) eqn:E.
  - apply String.eqb_eq in E. subst key. rewrite Hk. cbn [negb].
    unfold genericPairs. cbn [flat_map]. fold (genericPairs (remaining rest)).
    rewrite filter_app.
    rewrite (filter_isKey_none k (genericPairs (remaining rest))).
    + rewrite app_nil_r. apply filter_isKey_same.
      unfold genericPair. cbn [fst snd].
      destruct value; intros pair Hin; [|contradiction].
      destruct Hin as [<-|[]]. reflexivity.
    + intros pair Hin Heq. apply genericPairs_keys in Hin.
      apply Hnot. rewrite <- Heq. apply Hin.
  - destruct (negb (isSpecial key)); [|exact (IH Hnd')].
    unfold genericPairs. cbn [flat_map]. fold (genericPairs (remaining rest)).
    rewrite filter_app, (IH Hnd').
    rewrite filter_isKey_none; [reflexivity|].
    unfold genericPair. cbn [fst snd]. destruct value; intros pair Hin Heq.
    + destruct Hin as [<-|[]]. cbn [fst] in Heq. subst key.
      rewrite String.eqb_refl in E. discriminate.
    + exact Hin.
Qed.

(** The pairs of one key in the frame that [toString] reaches. *)
Lemma pairs_of_key_of_frame self frame :
  NoDup (map fst (arguments self)) ->
  toString_frame self = Some frame ->
  (forall entry pushed,
     In entry modifiers -> pushedBy entry (arguments self) = Some pushed ->
     filter (isKey (fst entry)) (result frame) = pushed)
  /\ (forall key,
        isSpecial key = false ->
        filter (isKey key) (result frame) = genericPair (key, get key (arguments self))).
Proof.
  intros Hnd Hframe.
  assert (H := toString_frame_result self Hnd). rewrite Hframe in H.
  destruct (specialPairs modifiers (arguments self)) as [special|] eqn:Es;
    [|discriminate].
  cbn [option_map] in H. injection H as ->. split.
  - intros entry pushed Hin Hp. rewrite filter_app.
    rewrite (specialPairs_filter_entry modifiers (arguments self) special entry pushed
               modifiers_keyed modifiers_NoDup Hin Es Hp).
    rewrite filter_isKey_none; [apply app_nil_r|].
    intros pair Hpair Heq. apply genericPairs_keys in Hpair.
    destruct Hpair as [_ Hs]. rewrite Heq in Hs.
    assert (Ht : isSpecial (fst entry) = true)
      by (apply isSpecial_In; apply in_map; exact Hin).
    congruence.
  - intros key Hk. rewrite filter_app.
    rewrite (specialPairs_filter_other key modifiers (arguments self) special
               modifiers_keyed);
      [| intros Hin; apply isSpecial_In in Hin; congruence | exact Es].
    apply genericPairs_filter_key; assumption.
Qed.

(** ** Values that a modifier treats alike *)

Lemma specialPairs_pushedBy_ext entries obj1 obj2 :
  (forall entry, In entry entries -> pushedBy entry obj1 = pushedBy entry obj2) ->
  specialPairs entries obj1 = specialPairs entries obj2.
Proof.
  induction entries as [|entry rest IH]; intros H; [reflexivity|].
  cbn [specialPairs]. rewrite (H entry (or_introl eq_refl)).
  rewrite IH by (intros e He; apply H; right; exact He). reflexivity.
Qed.

Lemma modifiers_functional e1 e2 :
  In e1 modifiers -> In e2 modifiers -> fst e1 = fst e2 -> e1 = e2.
Proof.
  unfold modifiers. cbn [In]. intros H1 H2 E.
  destruct H1 as [<-|[<-|[<-|[<-|[<-|[]]]]]];
    destruct H2 as [<-|[<-|[<-|[<-|[<-|[]]]]]];
    cbn [fst] in E; try discriminate E; reflexivity.
Qed.

Lemma get_app_skip name (before rest : Properties) :
  ~ In name (map fst before) -> get name (before ++ rest)%list = get name rest.
Proof.
  induction before as [|[key value] before IH]; intros Hnot; [reflexivity|].
  cbn [app get]. destruct (String.eqb key name) eqn:E.
  - apply String.eqb_eq in E. subst key. exfalso. apply Hnot. left. reflexivity.
  - apply IH. intros Hin. apply Hnot. right. exact Hin.
Qed.

Lemma get_replace_other name key x y (before after : Properties) :
  name <> key ->
  get name ((before ++ (key, x) :: after)%list%list) = get name ((before ++ (key, y) :: after)%list%list).
Proof.
  intros Hne. induction before as [|[k v] before IH].
  - cbn [app get]. destruct (String.eqb key name) eqn:E; [|reflexivity].
    apply String.eqb_eq in E. congruence.
  - cbn [app get]. destruct (String.eqb k name); [reflexivity | exact IH].
Qed.

(** Under a special-cased key, wherever it stands in the object, two values
    that the modifier treats alike give the same string. *)
Lemma toString_modifier_ext target key m v1 v2 (before after : Properties) :
  In (key, m) modifiers -> m v1 = m v2 ->
  NoDup (map fst ((before ++ (key, Some v1) :: after)%list)) ->
  toString {| target := target; arguments := (before ++ (key, Some v1) :: after)%list |}
  = toString {| target := target; arguments := (before ++ (key, Some v2) :: after)%list |}.
Proof.
  intros Hin Hm Hnd.
  assert (Hnd' : NoDup (map fst ((before ++ (key, Some v2) :: after)%list))).
  { rewrite map_app in *. exact Hnd. }
  assert (Hbefore : ~ In key (map fst before)).
  { rewrite map_app in Hnd. cbn [map fst] in Hnd. apply NoDup_remove_2 in Hnd.
    intros H. apply Hnd. apply in_or_app. left. exact H. }
  rewrite !toString_of_frame
    by (cbn [arguments]; intros Hnil; symmetry in Hnil; exact (app_cons_not_nil _ _ _ Hnil)).
  rewrite (toString_frame_result
             {| target := target; arguments := (before ++ (key, Some v1) :: after)%list |}
             Hnd).
  rewrite (toString_frame_result
             {| target := target; arguments := (before ++ (key, Some v2) :: after)%list |}
             Hnd').
  cbn [arguments Selector.target].
  assert (Hs : isSpecial key = true)
    by (apply isSpecial_In; apply (in_map fst) in Hin; exact Hin).
  assert (Hr : remaining ((before ++ (key, Some v1) :: after)%list)
               = remaining ((before ++ (key, Some v2) :: after)%list)).
  { unfold remaining. rewrite !filter_app. cbn [filter fst]. rewrite Hs. reflexivity. }
  rewrite Hr.
  rewrite (specialPairs_pushedBy_ext modifiers ((before ++ (key, Some v1) :: after)%list)
             ((before ++ (key, Some v2) :: after)%list)); [reflexivity|].
  intros entry He. unfold pushedBy.
  destruct (String.eqb key (fst entry)) eqn:E.
  - apply String.eqb_eq in E.
    assert (Heq : (key, m) = entry) by (apply modifiers_functional; assumption).
    subst entry. cbn [fst snd].
    rewrite !(get_app_skip key before _ Hbefore). cbn [get].
    rewrite String.eqb_refl. exact Hm.
  - apply String.eqb_neq in E.
    rewrite (get_replace_other (fst entry) key (Some v1) (Some v2) before after);
      [reflexivity | congruence].
Qed.

(** X19: one or many: under [tag] and under [predicate], wherever the key
    stands among the other arguments, a single string and the array that
    holds just this string are rendered alike. *)
Theorem toString_one_or_many target value (before after : Properties) :
  (NoDup (map fst ((before ++ ("tag", Some (VString value)) :: after)%list)) ->
   toString {| target := target;
               arguments := (before ++ ("tag", Some (VString value)) :: after)%list |}
   = toString {| target := target;
                 arguments := (before ++ ("tag", Some (VStrings [value])) :: after)%list |})
  /\ (NoDup (map fst ((before ++ ("predicate", Some (VString value)) :: after)%list)) ->
      toString {| target := target;
                  arguments := (before ++ ("predicate", Some (VString value)) :: after)%list |}
      = toString {| target := target;
                    arguments := (before ++ ("predicate", Some (VStrings [value])) :: after)%list |}).
Proof.
  split; intros Hnd.
  - apply (toString_modifier_ext target "tag" modifier_tag);
      [cbn; tauto | reflexivity | exact Hnd].
  - apply (toString_modifier_ext target "predicate" modifier_predicate);
      [cbn; tauto | reflexivity | exact Hnd].
Qed.

Lemma toString_one_or_many_witness :
  let before := [("limit", Some (VNumber 1))] in
  let after := [("sort", Some (VString "nearest"))] in
  NoDup (map fst ((before ++ ("tag", Some (VString "a")) :: after)%list))
  /\ toString {| target := "@e";
                 arguments := (before ++ ("tag", Some (VString "a")) :: after)%list |}
     = toString {| target := "@e";
                   arguments := (before ++ ("tag", Some (VStrings ["a"])) :: after)%list |}
  /\ toString {| target := "@e";
                 arguments := (before ++ ("tag", Some (VStrings ["a"])) :: after)%list |}
     = Some "@e[tag=a, limit=1, sort=nearest]".
Proof.
  intros before after.
  assert (Hnd : NoDup (map fst ((before ++ ("tag", Some (VString "a")) :: after)%list))).
  { cbn. repeat constructor; cbn; intuition discriminate. }
  split; [exact Hnd|]. split; [|reflexivity].
  apply (toString_one_or_many "@e" "a" before after). exact Hnd.
Defined.

(** X20: the booleans of [team] are shorthands: wherever the key stands
    among the other arguments, [true] is rendered like the team name [!],
    and [false] like the empty team name. *)
Theorem toString_team_booleans target (before after : Properties) :
  (NoDup (map fst ((before ++ ("team", Some (VBoolean true)) :: after)%list)) ->
   toString {| target := target;
               arguments := (before ++ ("team", Some (VBoolean true)) :: after)%list |}
   = toString {| target := target;
                 arguments := (before ++ ("team", Some (VString "!")) :: after)%list |})
  /\ (NoDup (map fst ((before ++ ("team", Some (VBoolean false)) :: after)%list)) ->
      toString {| target := target;
                  arguments := (before ++ ("team", Some (VBoolean false)) :: after)%list |}
      = toString {| target := target;
                    arguments := (before ++ ("team", Some (VString EmptyString)) :: after)%list |}).
Proof.
  split; intros Hnd;
    apply (toString_modifier_ext target "team" modifier_team);
    solve [cbn; tauto | reflexivity | exact Hnd].
Qed.

Lemma toString_team_booleans_witness :
  let before := [("limit", Some (VNumber 1))] in
  let after := [("sort", Some (VString "nearest"))] in
  NoDup (map fst ((before ++ ("team", Some (VBoolean true)) :: after)%list))
  /\ toString {| target := "@a";
                 arguments := (before ++ ("team", Some (VBoolean true)) :: after)%list |}
     = toString {| target := "@a";
                   arguments := (before ++ ("team", Some (VString "!")) :: after)%list |}
  /\ toString {| target := "@a";
                 arguments := (before ++ ("team", Some (VBoolean false)) :: after)%list |}
     = Some "@a[team=, limit=1, sort=nearest]".
Proof.
  intros before after.
  assert (Hnd : NoDup (map fst ((before ++ ("team", Some (VBoolean true)) :: after)%list))).
  { cbn. repeat constructor; cbn; intuition discriminate. }
  split; [exact Hnd|]. split; [|reflexivity].
  apply (toString_team_booleans "@a" before after). exact Hnd.
Defined.

(** ** The player capability *)



End SelectorMore.

(** * [toString] on typed arguments *)

Module SelectorTyped.
Import Selector SelectorFacts SelectorMore.

(** On a value of its declared type every modifier pushes its pairs. *)
Lemma wellTyped_pushedBy obj entry :
  wellTyped obj = true -> In entry modifiers ->
  exists pushed, pushedBy entry obj = Some pushed.
Proof.
  unfold wellTyped, declaredTypes. cbn [forallb fst snd].
  rewrite !andb_true_iff. intros [H1 [H2 [H3 [H4 [H5 _]]]]] Hin.
  unfold modifiers in Hin. cbn [In] in Hin.
  destruct Hin as [<-|[<-|[<-|[<-|[<-|[]]]]]]; unfold pushedBy; cbn [fst snd].
  - destruct (get "score" obj) as [value|]; [|eexists; reflexivity].
    destruct value; try discriminate H1. eexists. reflexivity.
  - destruct (get "advancements" obj) as [value|]; [|eexists; reflexivity].
    destruct value; try discriminate H2. eexists. reflexivity.
  - destruct (get "tag" obj) as [value|]; [|eexists; reflexivity].
    destruct value; try discriminate H3; eexists; reflexivity.
  - destruct (get "predicate" obj) as [value|]; [|eexists; reflexivity].
    destruct value; try discriminate H4; eexists; reflexivity.
  - destruct (get "team" obj) as [value|]; [|eexists; reflexivity].
    destruct value as [| |[|]| | | |]; try discriminate H5; eexists; reflexivity.
Qed.

Lemma pushedBy_specialPairs entries obj :
  (forall entry, In entry entries -> exists pushed, pushedBy entry obj = Some pushed) ->
  exists special, specialPairs entries obj = Some special.
Proof.
  induction entries as [|entry rest IH]; intros H; [eexists; reflexivity|].
  destruct (H entry (or_introl eq_refl)) as [pushed Hp].
  destruct IH as [special Hs]; [intros e He; apply H; right; exact He|].
  cbn [specialPairs]. rewrite Hp, Hs. eexists. reflexivity.
Qed.

(** On typed arguments [toString] reaches its [return]. *)
Lemma wellTyped_frame self :
  wellTyped (arguments self) = true -> exists frame, toString_frame self = Some frame.
Proof.
  intros Hty. unfold toString_frame.
  rewrite (applyModifiers_closed modifiers _ modifiers_NoDup). cbn [this args result].
  destruct (pushedBy_specialPairs modifiers (arguments self)) as [special Hs].
  - intros entry Hin. exact (wellTyped_pushedBy _ entry Hty Hin).
  - rewrite Hs. cbn [option_map]. eexists. reflexivity.
Qed.

(** C9: for every arguments object whose special-cased properties have
    their declared types, [toString] returns, and when the tag filter is a
    list of strings the pairs it emits under the key [tag] are one pair per
    element, in the order of the list (a single string gives one pair); an
    absent or undefined tag gives no pair; and [{tag: [a, b]}] on [@e] is
    rendered [@e[tag=a, tag=b]]. *)
Theorem toString_tag_pairs self :
  NoDup (map fst (arguments self)) ->
  wellTyped (arguments self) = true ->
  exists frame,
    toString_frame self = Some frame
    /\ let tagPairs := filter (isKey "tag") (result frame) in
       (forall tags, get "tag" (arguments self) = Some (VStrings tags) ->
          tagPairs = map (fun tag_ => ("tag", tag_)) tags)
       /\ (forall tag, get "tag" (arguments self) = Some (VString tag) ->
            tagPairs = [("tag", tag)])
       /\ (get "tag" (arguments self) = None -> tagPairs = [])
       /\ (arguments self <> [] ->
           toString self = Some (render (target self) (result frame)))
       /\ toString {| target := "@e"; arguments := [("tag", Some (VStrings ["a"; "b"]))] |}
          = Some "@e[tag=a, tag=b]".
Proof.
  intros Hnd Hty.
  destruct (wellTyped_frame self Hty) as [frame Hframe].
  exists frame. split; [exact Hframe|].
  exact (tag_pairs_of_frame self frame Hnd Hframe).
Qed.

Lemma toString_tag_pairs_witness :
  let self := {| target := "@e";
                 arguments := [("limit", Some (VNumber 1));
                               ("tag", Some (VStrings ["a"; "b"]))] |} in
  NoDup (map fst (arguments self))
  /\ wellTyped (arguments self) = true
  /\ toString self = Some "@e[tag=a, tag=b, limit=1]"
  /\ exists frame,
       toString_frame self = Some frame
       /\ filter (isKey "tag") (result frame) = [("tag", "a"); ("tag", "b")].
Proof.
  intros self.
  assert (Hnd : NoDup (map fst (arguments self))).
  { cbn. repeat constructor; cbn; intuition discriminate. }
  assert (Hty : wellTyped (arguments self) = true) by reflexivity.
  split; [exact Hnd|]. split; [exact Hty|]. split; [reflexivity|].
  destruct (toString_tag_pairs self Hnd Hty) as [frame [Hframe [Htags _]]].
  exists frame. split; [exact Hframe|].
  apply (Htags ["a"; "b"]). reflexivity.
Defined.

(** X16: for every arguments object whose special-cased properties have
    their declared types, [toString] returns and every key gives its pairs
    once: among the emitted pairs, those under a special-cased key are
    exactly what its modifier pushes (none when the key is missing or
    undefined), and those under any other key are the single pair of its
    value (none when missing or undefined). *)
Theorem toString_pairs_of_key self :
  NoDup (map fst (arguments self)) ->
  wellTyped (arguments self) = true ->
  exists frame,
    toString_frame self = Some frame
    /\ (arguments self <> [] ->
        toString self = Some (render (target self) (result frame)))
    /\ (forall entry,
          In entry modifiers ->
          exists pushed,
            pushedBy entry (arguments self) = Some pushed
            /\ filter (isKey (fst entry)) (result frame) = pushed)
    /\ (forall key,
          isSpecial key = false ->
          filter (isKey key) (result frame) = genericPair (key, get key (arguments self))).
Proof.
  intros Hnd Hty.
  destruct (wellTyped_frame self Hty) as [frame Hframe].
  destruct (pairs_of_key_of_frame self frame Hnd Hframe) as [Hspecial Hgeneric].
  exists frame. split; [exact Hframe|]. split; [|split].
  - intros Hne. rewrite (toString_of_frame self Hne), Hframe. cbn [option_map].
    reflexivity.
  - intros entry Hin.
    destruct (wellTyped_pushedBy _ entry Hty Hin) as [pushed Hp].
    exists pushed. split; [exact Hp | exact (Hspecial entry pushed Hin Hp)].
  - exact Hgeneric.
Qed.

Lemma toString_pairs_of_key_witness :
  let self := {| target := "@e";
                 arguments := [("limit", Some (VNumber 1));
                               ("predicate", Some (VStrings ["p"; "q"]));
                               ("team", Some (VString "red"))] |} in
  NoDup (map fst (arguments self))
  /\ wellTyped (arguments self) = true
  /\ toString self = Some "@e[predicate=p, predicate=q, team=red, limit=1]"
  /\ exists frame,
       toString_frame self = Some frame
       /\ filter (isKey "predicate") (result frame) = [("predicate", "p"); ("predicate", "q")]
       /\ filter (isKey "limit") (result frame) = [("limit", "1")]
       /\ filter (isKey "sort") (result frame) = [].
Proof.
  intros self.
  assert (Hnd : NoDup (map fst (arguments self))).
  { cbn. repeat constructor; cbn; intuition discriminate. }
  assert (Hty : wellTyped (arguments self) = true) by reflexivity.
  split; [exact Hnd|]. split; [exact Hty|]. split; [reflexivity|].
  destruct (toString_pairs_of_key self Hnd Hty) as [frame [Hframe [_ [Hspecial Hgeneric]]]].
  exists frame. split; [exact Hframe|]. split; [|split].
  - destruct (Hspecial ("predicate", modifier_predicate)) as [pushed [Hp Hf]];
      [cbn; tauto|].
    cbn [fst] in Hf. rewrite Hf. injection Hp as <-. reflexivity.
  - apply (Hgeneric "limit"). reflexivity.
  - apply (Hgeneric "sort"). reflexivity.
Defined.

End SelectorTyped.
